(** * zapdrop: the chunked file-transfer protocol of [utils/fileTransfer.ts]

    A shallow embedding of [FileSender.send] and of the data listener that
    [FileReceiver.setupListener] registers, with the fragment of the
    JavaScript runtime they rely on (binary64 arithmetic, sparse arrays,
    the [Blob] constructor), followed by the properties of the transfer
    protocol.  Then the parts of the component that use them ([sendFiles],
    the receiving effect, [formatSize]) and the connection hook of
    [hooks/usePeer.ts], each with its properties. *)

From Stdlib Require Import ZArith NArith QArith Qround Qpower Lia Lqa.
From Stdlib Require Import Strings.String Strings.Ascii Strings.Byte List SpecFloat.
From Stdlib Require Import DecimalString.
From stdpp Require Import gmap list.
Import ListNotations.

Local Open Scope Z_scope.

(** ** JavaScript numbers

    Every [number] of the program is an IEEE 754 binary64 value.  The
    operations the transfer code applies to them are [/], [*], [Math.ceil]
    and [Math.round]; each returns the exact result rounded to 53
    significant bits, nearest, ties to even.  The operands are
    non-negative: sizes, indices and counters.  The exponent range is left
    unbounded: quotients and products of integers below [2^53] stay far
    inside the normal range of binary64. *)

Module Number.

Inductive number : Type :=
| Fin (q : Q)
| Infinity
| NaN.

Definition pow2 (e : Z) : Q := (2 ^ e)%Q.

(** [floor (log2 x)] for a positive rational. *)
Definition Qlog2 (x : Q) : Z :=
  let d := Z.log2 (Qnum x) - Z.log2 (Z.pos (Qden x)) in
  if Qle_bool (pow2 d) x then d else d - 1.

(** Nearest integer, ties to the even one. *)
Definition rne (s : Q) : Z :=
  let f := Qfloor s in
  match (s - inject_Z f ?= 1 # 2)%Q with
  | Lt => f
  | Gt => f + 1
  | Eq => if Z.even f then f else f + 1
  end.

(** The binary64 value nearest to a non-negative rational: the
    significand is scaled into [2^52, 2^53) and rounded there. *)
Definition round53 (x : Q) : Q :=
  if Qle_bool x 0 then 0%Q
  else
    let e := Qlog2 x - 52 in
    (inject_Z (rne (x / pow2 e)) * pow2 e)%Q.

Definition is_zero (q : Q) : bool := Qeq_bool q 0.

(** [x / y] *)
Definition div (x y : number) : number :=
  match x, y with
  | Fin a, Fin b =>
      if is_zero b then (if is_zero a then NaN else Infinity)
      else Fin (round53 (a / b))
  | Fin _, Infinity => Fin 0
  | Infinity, Fin _ => Infinity
  | _, _ => NaN
  end.

(** [x * y] *)
Definition mul (x y : number) : number :=
  match x, y with
  | Fin a, Fin b => Fin (round53 (a * b))
  | Fin a, Infinity | Infinity, Fin a => if is_zero a then NaN else Infinity
  | Infinity, Infinity => Infinity
  | _, _ => NaN
  end.

(** [Math.ceil(x)] *)
Definition Math_ceil (x : number) : number :=
  match x with
  | Fin q => Fin (inject_Z (Qceiling q))
  | _ => x
  end.

(** [Math.round(x)]: the nearest integer, ties towards [+Infinity]. *)
Definition Math_round (x : number) : number :=
  match x with
  | Fin q => Fin (inject_Z (Qfloor (q + (1 # 2))))
  | _ => x
  end.

(** An unsigned integer as a number (exact below [2^53]). *)
Definition of_N (n : N) : number := Fin (inject_Z (Z.of_N n)).

(** The integer a loop bound or an array length stands for. *)
Definition to_N (x : number) : N :=
  match x with
  | Fin q => Z.to_N (Qfloor q)
  | _ => 0%N
  end.

Definition le (x y : number) : Prop :=
  match x, y with
  | Fin a, Fin b => (a <= b)%Q
  | Fin _, Infinity | Infinity, Infinity => True
  | _, _ => False
  end.

(** [Math.round((a / n) * 100)], the expression both the sender and the
    receiver report as progress. *)
Definition percent (a n : N) : number :=
  Math_round (mul (div (of_N a) (of_N n)) (of_N 100)).

(** The binary64 operations of the Standard Library, for comparison. *)
Definition SF64 (n : N) : spec_float :=
  binary_normalize 53 1024 (Z.of_N n) 0 false.

Definition SF2Q (f : spec_float) : Q :=
  match f with
  | S754_finite false m e => (inject_Z (Z.pos m) * pow2 e)%Q
  | _ => 0%Q
  end.

Definition SF_percent (a n : N) : spec_float :=
  SFmul 53 1024 (SFdiv 53 1024 (SF64 a) (SF64 n)) (SF64 100).

Definition agrees_with_binary64 (a n : N) : bool :=
  match mul (div (of_N a) (of_N n)) (of_N 100) with
  | Fin q => Qeq_bool q (SF2Q (SF_percent a n))
  | _ => false
  end.

End Number.

Abbreviation number := Number.number.


(** ** The runtime objects the transfer code handles *)

Abbreviation ArrayBuffer := (list byte).

(** A [File]: its [name], its [type] and the bytes it holds; [size] is
    their number, and [slice(start, end)] clamps both ends to it. *)
Record File : Type := mkFile {
  file_name : string;
  file_type : string;
  file_bytes : list byte
}.

Definition size (f : File) : N := N.of_nat (length (file_bytes f)).

Definition slice (f : File) (start end_ : N) : ArrayBuffer :=
  take (N.to_nat (end_ - start)) (drop (N.to_nat start) (file_bytes f)).

(** A JavaScript array of buffers: a property map and a [length].  A key
    below [2^32 - 1] is an array index, and writing it extends [length];
    any other key is an ordinary property that iteration never visits. *)
Module Array.

Record t : Type := mk {
  length : N;
  elems : gmap N ArrayBuffer
}.

Definition max_length : N := 4294967295.

Definition empty : t := mk 0 ∅.

(** [new Array(len)] raises a [RangeError] above [2^32 - 1]. *)
Definition new (len : N) : option t :=
  if (len <=? max_length)%N then Some (mk len ∅) else None.

(** [a[k] = v] *)
Definition set (a : t) (k : N) (v : ArrayBuffer) : t :=
  mk (if (k <? max_length)%N then N.max (length a) (k + 1) else length a)
     (<[k := v]> (elems a)).

(** [a[k]] ([None] is [undefined]). *)
Definition get (a : t) (k : N) : option ArrayBuffer := elems a !! k.

(** The values iteration yields: indices [0 .. length-1], holes as
    [undefined]. *)
Definition to_list (a : t) : list (option ArrayBuffer) :=
  map (fun i => get a (N.of_nat i)) (seq 0 (N.to_nat (length a))).

End Array.

(** A [Blob]: the concatenation of its parts.  A part that is
    [undefined] is converted to the string ["undefined"]; the [type]
    option is lowercased, or dropped when it has a character outside
    U+0020 .. U+007E. *)
Record Blob : Type := mkBlob {
  blob_bytes : list byte;
  blob_type : string
}.

Definition part_bytes (p : option ArrayBuffer) : list byte :=
  match p with
  | Some b => b
  | None => list_byte_of_string "undefined"
  end.

Definition printable (c : ascii) : bool :=
  ((32 <=? N_of_ascii c) && (N_of_ascii c <=? 126))%N.

Definition ascii_lowercase (c : ascii) : ascii :=
  if ((65 <=? N_of_ascii c) && (N_of_ascii c <=? 90))%N
  then ascii_of_N (N_of_ascii c + 32) else c.

Definition normalize_type (s : string) : string :=
  if forallb printable (list_ascii_of_string s)
  then string_of_list_ascii (map ascii_lowercase (list_ascii_of_string s))
  else EmptyString.

Definition new_Blob (parts : Array.t) (type : string) : Blob :=
  mkBlob (flat_map part_bytes (Array.to_list parts)) (normalize_type type).

(** ** The frames of the protocol *)

Definition CHUNK_SIZE : N := 16 * 1024.

Record FileMetadata : Type := mkMetadata {
  fileName : string;
  fileType : string;
  fileSize : N;
  totalChunks : N
}.

Record FileChunk : Type := mkChunk {
  index : N;
  data : ArrayBuffer
}.

Inductive FileMessage : Type :=
| Metadata (m : FileMetadata)
| Chunk (c : FileChunk)
| Complete.

(** ** FileSender *)

Module FileSender.

(** What [send] does to its environment, in order: a frame handed to
    the connection, a call of the progress callback, a timer it awaits.
    The connection takes every frame, the file can be read and the
    callback returns normally: [send] runs to its end. *)
Inductive effect (A : Type) : Type :=
| ConnectionSend (m : FileMessage)
| Call (a : A)
| SetTimeout (ms : N).
Arguments ConnectionSend {A} m.
Arguments Call {A} a.
Arguments SetTimeout {A} ms.

Record t (A : Type) : Type := mk {
  file : File;
  onProgress : option (number -> A)
}.
Arguments mk {A} file onProgress.
Arguments file {A} t.
Arguments onProgress {A} t.

Section Send.
Context {A : Type} (this : t A).

(** One iteration of the loop, at index [i]. *)
Definition send_chunk (totalChunks i : N) : list (effect A) :=
  let start := (i * CHUNK_SIZE)%N in
  let end_ := N.min (start + CHUNK_SIZE) (size (file this)) in
  let arrayBuffer := slice (file this) start end_ in
  let chunkMessage := mkChunk i arrayBuffer in
  let progress :=
    Number.Math_round
      (Number.mul (Number.div (Number.of_N (i + 1)) (Number.of_N totalChunks))
                  (Number.of_N 100)) in
  [ConnectionSend (Chunk chunkMessage)]
  ++ match onProgress this with
     | Some f => [Call (f progress)]
     | None => []
     end
  ++ (if (i mod 10 =? 0)%N then [SetTimeout 1] else []).

(** [for (let i = ...; i < totalChunks; i++)], from [i] on. *)
Fixpoint send_loop (fuel : nat) (totalChunks i : N) : list (effect A) :=
  if (i <? totalChunks)%N then
    match fuel with
    | O => []
    | S fuel' =>
        send_chunk totalChunks i ++ send_loop fuel' totalChunks (i + 1)
    end
  else [].

Definition send : list (effect A) :=
  let totalChunks :=
    Number.to_N
      (Number.Math_ceil
         (Number.div (Number.of_N (size (file this))) (Number.of_N CHUNK_SIZE))) in
  let metadata :=
    mkMetadata (file_name (file this)) (file_type (file this))
               (size (file this)) totalChunks in
  [ConnectionSend (Metadata metadata)]
  ++ send_loop (N.to_nat totalChunks) totalChunks 0
  ++ [ConnectionSend Complete].
End Send.

(** The frames among the effects, and the values the callback returned. *)
Definition frames {A} (es : list (effect A)) : list FileMessage :=
  flat_map (fun e => match e with ConnectionSend m => [m] | _ => [] end) es.


End FileSender.

(** ** FileReceiver *)

Module FileReceiver.

Inductive Error : Type :=
| TypeError
| RangeError
| GenericError (message : string).

(** A thrown value: an [Error] instance, or anything else. *)
Inductive thrown : Type :=
| ThrownError (e : Error)
| ThrownValue.

(** What the connection may deliver ([data: unknown]): [null] or
    [undefined], a frame, or a value whose [type] is none of the tags.
    The numbers of a frame are unsigned integers. *)
Inductive unknown : Type :=
| Nullish
| Message (m : FileMessage)
| Unrecognized.

(** The private fields. *)
Record t : Type := mk {
  chunks : Array.t;
  metadata : option FileMetadata;
  receivedChunks : N
}.

(** The public callback fields; [None] is [null].  A callback returns
    normally, and [A] is what its owner makes of the call. *)
Record callbacks (A : Type) : Type := mkCallbacks {
  onStart : option A;
  onProgress : option (number -> A);
  onComplete : option (Blob -> string -> string -> A);
  onError : option (Error -> A)
}.
Arguments mkCallbacks {A} onStart onProgress onComplete onError.
Arguments onStart {A} c.
Arguments onProgress {A} c.
Arguments onComplete {A} c.
Arguments onError {A} c.

(** The fields of a receiver just constructed. *)
Definition init : t := mk Array.empty None 0.

(** *** The listener's effects

    A computation reads and writes the fields, appends the results of
    the callbacks it calls, and returns or throws. *)
Inductive outcome (X : Type) : Type :=
| Return (x : X)
| Throw (e : thrown).
Arguments Return {X} x.
Arguments Throw {X} e.

Definition M (A X : Type) : Type := t -> t * list A * outcome X.

Definition ret {A X} (x : X) : M A X := fun s => (s, [], Return x).

Definition bind {A X Y} (m : M A X) (k : X -> M A Y) : M A Y :=
  fun s =>
    match m s with
    | (s1, out1, Return x) =>
        let '(s2, out2, r) := k x s1 in (s2, out1 ++ out2, r)
    | (s1, out1, Throw e) => (s1, out1, Throw e)
    end.

Definition throw {A X} (e : Error) : M A X :=
  fun s => (s, [], Throw (ThrownError e)).

Definition try_catch {A} (body : M A unit) (handler : thrown -> M A unit)
  : M A unit :=
  fun s =>
    match body s with
    | (s1, out1, Return x) => (s1, out1, Return x)
    | (s1, out1, Throw e) =>
        let '(s2, out2, r) := handler e s1 in (s2, out1 ++ out2, r)
    end.

Definition get {A} : M A t := fun s => (s, [], Return s).

Definition set_chunks {A} (a : Array.t) : M A unit :=
  fun s => (mk a (metadata s) (receivedChunks s), [], Return tt).

Definition set_metadata {A} (m : option FileMetadata) : M A unit :=
  fun s => (mk (chunks s) m (receivedChunks s), [], Return tt).

Definition set_receivedChunks {A} (n : N) : M A unit :=
  fun s => (mk (chunks s) (metadata s) n, [], Return tt).

(** [if (cb) cb(...)] *)
Definition call {A} (cb : option A) : M A unit :=
  fun s => (s, option_list cb, Return tt).

Definition new_Array {A} (len : N) : M A Array.t :=
  match Array.new len with
  | Some a => ret a
  | None => throw RangeError
  end.

(** [message.type], for [message] the data received: [None] when it is
    none of the three tags. *)
Definition message_type {A} (received : unknown) : M A (option FileMessage) :=
  match received with
  | Nullish => throw TypeError
  | Message m => ret (Some m)
  | Unrecognized => ret None
  end.

(** [err instanceof Error ? err : new Error('Unknown error')] *)
Definition as_Error (err : thrown) : Error :=
  match err with
  | ThrownError e => e
  | ThrownValue => GenericError "Unknown error"
  end.

#[global] Instance M_ret {A} : MRet (M A) := fun X => @ret A X.
#[global] Instance M_bind {A} : MBind (M A) := fun X Y k m => @bind A X Y m k.

Section Listener.
Context {A : Type} (cb : callbacks A).

(** The body of the [try] block. *)
Definition handle (received : unknown) : M A unit :=
  message ← message_type received;
  this ← get;
  match message, metadata this with
  | Some (Metadata message), _ =>
      set_metadata (Some message) ;;
      a ← new_Array (totalChunks message);
      set_chunks a ;;
      set_receivedChunks 0 ;;
      call (onStart cb)
  | Some (Chunk message), Some md =>
      set_chunks (Array.set (chunks this) (index message) (data message)) ;;
      set_receivedChunks (receivedChunks this + 1) ;;
      this ← get;
      let progress :=
        Number.Math_round
          (Number.mul
             (Number.div (Number.of_N (receivedChunks this))
                         (Number.of_N (totalChunks md)))
             (Number.of_N 100)) in
      call (option_map (fun f => f progress) (onProgress cb))
  | Some Complete, Some md =>
      let blob := new_Blob (chunks this) (fileType md) in
      call (option_map (fun f => f blob (fileName md) (fileType md))
                       (onComplete cb)) ;;
      set_chunks Array.empty ;;
      set_metadata None ;;
      set_receivedChunks 0
  | _, _ => ret tt
  end.

(** The listener registered on the connection's [data] event. *)
Definition listener (received : unknown) : M A unit :=
  try_catch (handle received)
    (fun err => call (option_map (fun f => f (as_Error err)) (onError cb))).

(** One [data] event: the fields afterwards and the callbacks' results. *)
Definition on_data (this : t) (received : unknown) : t * list A :=
  let '(this', out, _) := listener received this in (this', out).

(** The events of a connection, in the order it delivers them. *)
Fixpoint deliver (this : t) (events : list unknown) : t * list A :=
  match events with
  | [] => (this, [])
  | received :: rest =>
      let '(this1, out1) := on_data this received in
      let '(this2, out2) := deliver this1 rest in
      (this2, out1 ++ out2)
  end.
End Listener.

(** Callbacks that record each call. *)
Inductive event : Type :=
| Started
| Progress (percent : number)
| Completed (blob : Blob) (fileName fileType : string)
| Errored (error : Error).

Definition recorder : callbacks event :=
  mkCallbacks (Some Started) (Some Progress) (Some Completed) (Some Errored).

End FileReceiver.

(** ** Vocabulary of the properties *)

(** The chunk count [send] computes for a file, and the payload it slices
    at index [i]. *)
Definition chunk_count (f : File) : N :=
  Number.to_N
    (Number.Math_ceil (Number.div (Number.of_N (size f)) (Number.of_N CHUNK_SIZE))).

Definition payload (f : File) (i : N) : ArrayBuffer :=
  slice f (i * CHUNK_SIZE) (N.min (i * CHUNK_SIZE + CHUNK_SIZE) (size f)).

(** The indices [0 .. n-1], ascending. *)
Definition indices (n : N) : list N := map N.of_nat (seq 0 (N.to_nat n)).

(** Chunk frames carrying the given payloads at indices [0, 1, ...]. *)
Definition in_order (payloads : list ArrayBuffer) : list FileChunk :=
  imap (fun i d => mkChunk (N.of_nat i) d) payloads.

(** The percentages reported while [n] chunks of [total] go by, the
    counter starting from [received]. *)
Definition percents (received total : N) (n : nat) : list number :=
  map (fun k => Number.percent (received + N.of_nat k) total) (seq 1 n).





(** The array after the chunks [cs] were stored in turn, and the frames
    of a transfer. *)
Definition store (a : Array.t) (cs : list FileChunk) : Array.t :=
  foldl (fun a c => Array.set a (index c) (data c)) a cs.

Definition chunk_frames (cs : list FileChunk) : list FileReceiver.unknown :=
  map (fun c => FileReceiver.Message (Chunk c)) cs.

Definition transfer (m : FileMetadata) (cs : list FileChunk)
  : list FileReceiver.unknown :=
  FileReceiver.Message (Metadata m)
  :: chunk_frames cs ++ [FileReceiver.Message Complete].


(** The handling of [received] in state [this] raises [e]. *)
Definition raises {A} (cb : FileReceiver.callbacks A)
    (this : FileReceiver.t) (received : FileReceiver.unknown)
    (e : FileReceiver.thrown) : Prop :=
  (FileReceiver.handle cb received this).2 = FileReceiver.Throw e.

(** What the progress callback returns for each of the given percentages. *)
Definition progress_calls {A} (cb : FileReceiver.callbacks A)
    (ps : list number) : list A :=
  flat_map
    (fun p => option_list (option_map (fun f => f p) (FileReceiver.onProgress cb)))
    ps.

(** ** Sample values *)

Definition hello : File :=
  mkFile "hello.txt" "text/plain" [x68; x65; x6c; x6c; x6f].

Definition empty_file : File := mkFile "empty.bin" "" [].

Definition hello_sender : FileSender.t number :=
  FileSender.mk hello (Some (fun p => p)).

Definition hello_metadata : FileMetadata :=
  mkMetadata "hello.txt" "text/plain" 5 1.

(** The metadata of a file of one byte, hence of one chunk. *)
Definition one_byte : FileMetadata := mkMetadata "a.bin" "" 1 1.


(** A receiver that has accepted [hello_metadata] and no chunk yet. *)
Definition collecting : FileReceiver.t :=
  FileReceiver.mk (Array.mk 1 ∅) (Some hello_metadata) 0.

(** One chunk more than an array can index, each of one byte. *)
Definition too_many : N := 4294967296.

Definition big_metadata : FileMetadata :=
  mkMetadata "big.bin" "" too_many too_many.

Definition big_payloads : list ArrayBuffer := repeat [x00] (N.to_nat too_many).

(** ** Vocabulary of the further properties *)

(** The timers [send] awaits, in order. *)
Definition timers {A} (es : list (FileSender.effect A)) : list N :=
  flat_map (fun e => match e with
                     | FileSender.SetTimeout ms => [ms]
                     | _ => []
                     end) es.

(** What each recorded [onComplete] received: payload, name and type. *)
Definition completions (evs : list FileReceiver.event)
  : list (list byte * string * string) :=
  flat_map (fun e => match e with
                     | FileReceiver.Completed blob name type =>
                         [(blob_bytes blob, name, type)]
                     | _ => []
                     end) evs.

(** The errors recorded. *)
Definition errors (evs : list FileReceiver.event) : list FileReceiver.Error :=
  flat_map (fun e => match e with
                     | FileReceiver.Errored err => [err]
                     | _ => []
                     end) evs.

(** The Metadata frames among what a connection delivers. *)
Definition metadata_frames (l : list FileReceiver.unknown) : list FileMetadata :=
  flat_map (fun d => match d with
                     | FileReceiver.Message (Metadata m) => [m]
                     | _ => []
                     end) l.


(** The errors the listener reports for the frames delivered: a
    [TypeError] for [null] or [undefined], a [RangeError] for a Metadata
    frame whose [totalChunks] is no array length. *)
Definition expected_errors (l : list FileReceiver.unknown)
  : list FileReceiver.Error :=
  flat_map (fun d => match d with
                     | FileReceiver.Nullish => [FileReceiver.TypeError]
                     | FileReceiver.Message (Metadata m) =>
                         if (totalChunks m <=? Array.max_length)%N then []
                         else [FileReceiver.RangeError]
                     | _ => []
                     end) l.

(** A frame whose metadata, if it has one, declares the size [s] gives
    for it, and is otherwise the same. *)
Definition declare (s : FileMetadata -> N) (d : FileReceiver.unknown)
  : FileReceiver.unknown :=
  match d with
  | FileReceiver.Message (Metadata m) =>
      FileReceiver.Message
        (Metadata (mkMetadata (fileName m) (fileType m) (s m) (totalChunks m)))
  | _ => d
  end.

(** Two receivers that differ at most in the [fileSize] of their
    metadata. *)
Definition same_but_fileSize (this this' : FileReceiver.t) : Prop :=
  FileReceiver.chunks this = FileReceiver.chunks this'
  /\ FileReceiver.receivedChunks this = FileReceiver.receivedChunks this'
  /\ match FileReceiver.metadata this, FileReceiver.metadata this' with
     | Some m, Some m' =>
         fileName m = fileName m' /\ fileType m = fileType m'
         /\ totalChunks m = totalChunks m'
     | None, None => True
     | _, _ => False
     end.

(** ** App: sending a list of files, showing what is received

    The state a component keeps with [useState] is changed by the
    updates it is given, in the order they are issued. *)

Module App.

Inductive transfer_status : Type := pending | sending | complete | error.

Record FileTransferState : Type := mkTransfer {
  file : File;
  progress : number;
  status : transfer_status
}.

Record ReceivedFile : Type := mkReceived {
  blob : Blob;
  name : string;
  type : string
}.

Inductive sound : Type :=
| sound_click
| sound_connected
| sound_complete
| sound_error.

Inductive toast_type : Type := toast_success | toast_error | toast_info.

(** What the component does besides sending: a state update, a sound, a
    toast, a line on the console. *)
Inductive action : Type :=
| SetFiles (update : list FileTransferState -> list FileTransferState)
| SetIsReceiving (b : bool)
| SetReceiveProgress (p : number)
| SetReceivedFile (f : option ReceivedFile)
| PlaySound (s : sound)
| ShowToast (message : string) (type : toast_type)
| ConsoleError (err : FileReceiver.Error).

(** An action of [sendFiles] itself, or an effect of the sender it runs. *)
Inductive effect : Type :=
| Act (a : action)
| Sender (e : FileSender.effect action).

(** [prev.map((f, idx) => idx === fileIndex ? g(f) : f)] *)
Definition update_at (fileIndex : nat)
    (g : FileTransferState -> FileTransferState)
    (prev : list FileTransferState) : list FileTransferState :=
  imap (fun idx f => if (idx =? fileIndex)%nat then g f else f) prev.

(** The sender the loop body constructs for the file it shows at
    [fileIndex], with the progress callback it assigns. *)
Definition sender (fileIndex : nat) (file : File) : FileSender.t action :=
  FileSender.mk file
    (Some (fun progress =>
             SetFiles
               (update_at fileIndex
                  (fun f => mkTransfer (App.file f) progress (status f))))).

(** [await sender.send()].  Either [send] runs to its end, or it is
    rejected where the connection refuses a frame or a chunk cannot be
    read: before the effect at position [k] of what it does otherwise,
    having left the effects before that one.  Every position is
    allowed, those where [send] cannot fail included; a position past
    the end is never reached.  The result tells whether the promise was
    fulfilled. *)
Definition await_send (sender : FileSender.t action) (failure : option nat)
  : list (FileSender.effect action) * bool :=
  let run := FileSender.send sender in
  match failure with
  | Some k => if (k <? length run)%nat then (take k run, false) else (run, true)
  | None => (run, true)
  end.

(** The body of the loop for the file at position [i]: the [try] block,
    and the [catch] block when the sender is rejected. *)
Definition send_file (soundEnabled : bool) (files_length i : nat)
    (file : File) (failure : option nat) : list effect :=
  let fileIndex := (files_length + i)%nat in
  let '(effects, fulfilled) := await_send (sender fileIndex file) failure in
  [Act (SetFiles
          (update_at fileIndex
             (fun f => mkTransfer (App.file f) (progress f) sending)))]
  ++ map Sender effects
  ++ (if fulfilled then
        [Act (SetFiles
                (update_at fileIndex
                   (fun f => mkTransfer (App.file f) (Number.Fin 100)
                                        complete)))]
        ++ (if soundEnabled then [Act (PlaySound sound_complete)] else [])
        ++ [Act (ShowToast ("Sent: " ++ file_name file) toast_success)]
      else
        [Act (SetFiles
                (update_at fileIndex
                   (fun f => mkTransfer (App.file f) (progress f) error)))]
        ++ (if soundEnabled then [Act (PlaySound sound_error)] else [])
        ++ [Act (ShowToast ("Failed to send: " ++ file_name file)
                           toast_error)]).

(** [sendFiles(fileList)], for the connection, the [files.length] and
    the [soundEnabled] its closure holds; [failures i] tells where the
    sender of the file at position [i] is rejected, if it is. *)
Definition sendFiles {Connection : Type} (connection : option Connection)
    (files_length : nat) (soundEnabled : bool)
    (failures : nat -> option nat) (fileList : list File)
  : list effect :=
  match connection with
  | None => []
  | Some _ =>
      let newFiles :=
        map (fun f => mkTransfer f (Number.Fin 0) pending) fileList in
      [Act (SetFiles (fun prev => prev ++ newFiles))]
      ++ concat (imap (fun i file =>
                         send_file soundEnabled files_length i file
                                   (failures i))
                      fileList)
  end.

(** The frames that went to the connection, and the files state after
    the updates. *)
Definition wire (es : list effect) : list FileMessage :=
  flat_map (fun e => match e with
                     | Sender (FileSender.ConnectionSend m) => [m]
                     | _ => []
                     end) es.




(** What a receiver is to complete for it: the file if the sender was
    fulfilled, nothing otherwise. *)
Definition arrived (fileIndex : nat) (f : File) (failure : option nat)
  : list (list byte * string * string) :=
  if (await_send (sender fileIndex f) failure).2
  then [(file_bytes f, file_name f, file_type f)]
  else [].

(** The callbacks the component gives its receiver. *)
Definition receiver_callbacks (soundEnabled : bool)
  : FileReceiver.callbacks (list action) :=
  FileReceiver.mkCallbacks
    (Some [SetIsReceiving true;
           SetReceiveProgress (Number.Fin 0);
           SetReceivedFile None])
    (Some (fun progress => [SetReceiveProgress progress]))
    (Some (fun blob fileName fileType =>
             [SetReceivedFile (Some (mkReceived blob fileName fileType));
              SetIsReceiving false]
             ++ (if soundEnabled then [PlaySound sound_complete] else [])
             ++ [ShowToast ("Received: " ++ fileName) toast_success]))
    (Some (fun err =>
             [ConsoleError err; SetIsReceiving false]
             ++ (if soundEnabled then [PlaySound sound_error] else [])
             ++ [ShowToast "Transfer failed" toast_error])).



Definition toasts (acts : list action) : list (string * toast_type) :=
  flat_map (fun a => match a with
                     | ShowToast m t => [(m, t)]
                     | _ => []
                     end) acts.

(** The receiving effect.  A connection is known here by the listeners
    of its [data] event, in the order they were registered: each is the
    listener of one receiver, with the [soundEnabled] the callbacks of
    that receiver captured.  A run of the effect with a connection
    constructs a receiver, whose constructor registers its listener; the
    cleanup clears [receiverRef] and leaves the connection as it is. *)
Definition receiving_effect (soundEnabled : bool)
    (connection : option (list (bool * FileReceiver.t)))
  : option (list (bool * FileReceiver.t)) :=
  match connection with
  | None => None
  | Some listeners => Some (listeners ++ [(soundEnabled, FileReceiver.init)])
  end.

(** The connection emits [data]: every listener is called, in order. *)
Definition emit (listeners : list (bool * FileReceiver.t))
    (received : FileReceiver.unknown)
  : list (bool * FileReceiver.t) * list action :=
  (map (fun l =>
          (l.1, (FileReceiver.on_data (receiver_callbacks l.1) l.2 received).1))
       listeners,
   flat_map (fun l =>
               concat (FileReceiver.on_data (receiver_callbacks l.1) l.2
                         received).2)
            listeners).

Fixpoint emit_all (listeners : list (bool * FileReceiver.t))
    (events : list FileReceiver.unknown)
  : list (bool * FileReceiver.t) * list action :=
  match events with
  | [] => (listeners, [])
  | received :: rest =>
      let '(listeners1, acts1) := emit listeners received in
      let '(listeners2, acts2) := emit_all listeners1 rest in
      (listeners2, acts1 ++ acts2)
  end.

Definition sounds_played (acts : list action) : list sound :=
  flat_map (fun a => match a with PlaySound s => [s] | _ => [] end) acts.

End App.

(** ** The connection hook of [hooks/usePeer.ts] *)

Module UsePeer.

(** [Math.floor(x)] *)
Definition Math_floor (x : number) : number :=
  match x with
  | Number.Fin q => Number.Fin (inject_Z (Qfloor q))
  | _ => x
  end.

(** [s.charAt(pos)]: the position is truncated towards zero, [NaN]
    counting as 0; outside the string the result is empty. *)
Definition charAt (s : string) (pos : number) : string :=
  let char_at (z : Z) :=
    if (z <? 0)%Z then EmptyString
    else match String.get (Z.to_nat z) s with
         | Some c => String c EmptyString
         | None => EmptyString
         end in
  match pos with
  | Number.Fin q => char_at (if Qle_bool 0 q then Qfloor q else Qceiling q)
  | Number.NaN => char_at 0%Z
  | Number.Infinity => EmptyString
  end.

Definition chars : string := "abcdefghijklmnopqrstuvwxyz0123456789".

(** [generateShortId()], where [random i] is what [Math.random()]
    returns in round [i] of the loop. *)
Definition generateShortId (random : nat -> number) : string :=
  foldl (fun result i =>
           (result
            ++ charAt chars
                 (Math_floor
                    (Number.mul (random i)
                       (Number.of_N (N.of_nat (String.length chars))))))%string)
        "zap-"%string (seq 0 6).

Inductive ConnectionStatus : Type :=
| Initializing
| Ready
| Connecting
| Connected
| Reconnecting
| Error.

Definition maxReconnectAttempts : nat := 3.

Section Hook.

Context {DataConnection : Type}.

(** The state of the hook and its two refs.  A [Peer] is known by the id
    it was constructed with. *)
Record t : Type := mk {
  myId : option string;
  connection : option DataConnection;
  status : ConnectionStatus;
  error : option string;
  peerRef : option string;
  reconnectAttempts : nat
}.

Definition init : t := mk None None Initializing None None 0.

(** What the hook asks of PeerJS, of the timer and of the console. *)
Inductive effect : Type :=
| Destroy (peer : string)
| NewPeer (id : string)
| SetTimeout_initializePeer (ms : N)
| Reconnect (peer : string)
| Connect (peer remoteId : string)
| ConsoleError (label : string).

(** What can happen to the hook: the component mounts or unmounts, the
    timer of an earlier error fires, a peer or a connection emits an
    event, the component calls [connectToPeer] or [retry]. *)
Inductive event : Type :=
| Mount
| Unmount
| TimerFired
| PeerOpen (peerId : string)
| PeerConnection (conn : DataConnection)
| PeerError (type message : string)
| PeerDisconnected (peer : string)
| ConnOpen (conn : DataConnection)
| ConnClose
| ConnError (incoming : bool)
| ConnectToPeer (remoteId : string)
| Retry.

Definition initializePeer (random : nat -> number) (st : t) : t * list effect :=
  let id := generateShortId random in
  (mk (myId st) (connection st) (status st) (error st) (Some id)
      (reconnectAttempts st),
   match peerRef st with Some peer => [Destroy peer] | None => [] end
   ++ [NewPeer id]).

(** One event, handled by the handler the hook registered for it. *)
Definition step (random : nat -> number) (st : t) (ev : event)
  : t * list effect :=
  match ev with
  | Mount | TimerFired => initializePeer random st
  | Unmount =>
      (st, match peerRef st with Some peer => [Destroy peer] | None => [] end)
  | PeerOpen peerId =>
      (mk (Some peerId) (connection st) Ready None (peerRef st) 0, [])
  | PeerConnection _ =>
      (mk (myId st) (connection st) Connecting (error st) (peerRef st)
          (reconnectAttempts st), [])
  | PeerError type message =>
      let '(st', es) :=
        if String.eqb type "unavailable-id" then initializePeer random st
        else if (reconnectAttempts st <? maxReconnectAttempts)%nat then
          (mk (myId st) (connection st) Reconnecting (error st) (peerRef st)
              (S (reconnectAttempts st)),
           [SetTimeout_initializePeer 2000])
        else
          (mk (myId st) (connection st) Error
              (Some (if String.eqb message EmptyString
                     then "Connection failed"%string else message))
              (peerRef st) (reconnectAttempts st), []) in
      (st', ConsoleError "Peer error:" :: es)
  | PeerDisconnected peer =>
      if (reconnectAttempts st <? maxReconnectAttempts)%nat then
        (mk (myId st) (connection st) Reconnecting (error st) (peerRef st)
            (S (reconnectAttempts st)),
         [Reconnect peer])
      else (st, [])
  | ConnOpen conn =>
      (mk (myId st) (Some conn) Connected (error st) (peerRef st)
          (reconnectAttempts st), [])
  | ConnClose =>
      (mk (myId st) None Ready (error st) (peerRef st)
          (reconnectAttempts st), [])
  | ConnError incoming =>
      (mk (myId st) (connection st) Error
          (Some (if incoming then "Connection lost" else "Failed to connect")%string)
          (peerRef st) (reconnectAttempts st),
       [ConsoleError "Connection error:"])
  | ConnectToPeer remoteId =>
      match peerRef st with
      | None => (st, [])
      | Some peer =>
          (mk (myId st) (connection st) Connecting None (peerRef st)
              (reconnectAttempts st),
           [Connect peer remoteId])
      end
  | Retry =>
      initializePeer random
        (mk (myId st) (connection st) (status st) (error st) (peerRef st) 0)
  end.

(** A sequence of events, each with the random numbers drawn while it is
    handled. *)
Fixpoint run (st : t) (inputs : list ((nat -> number) * event))
  : t * list effect :=
  match inputs with
  | [] => (st, [])
  | (random, ev) :: rest =>
      let '(st1, es1) := step random st ev in
      let '(st2, es2) := run st1 rest in
      (st2, es1 ++ es2)
  end.

(** The reconnections the hook starts by itself, the peers it creates,
    and the events that reset the counter of attempts. *)
Definition reconnections (es : list effect) : list effect :=
  List.filter (fun e => match e with
                        | SetTimeout_initializePeer _ | Reconnect _ => true
                        | _ => false
                        end) es.

Definition new_peers (es : list effect) : list string :=
  flat_map (fun e => match e with NewPeer id => [id] | _ => [] end) es.

Definition resets (ev : event) : bool :=
  match ev with
  | PeerOpen _ | Retry => true
  | _ => false
  end.


End Hook.

Arguments t : clear implicits.
Arguments effect : clear implicits.
Arguments event : clear implicits.

(** The characters of an id: lower-case letters and digits. *)
Definition alphanumeric (c : ascii) : bool :=
  let n := N_of_ascii c in
  ((97 <=? n) && (n <=? 122) || (48 <=? n) && (n <=? 57))%N.

(** The range of [Math.random()]: from 0 to the last number below 1. *)
Definition in_unit_interval (x : number) : Prop :=
  match x with
  | Number.Fin r => (0 <= r <= 1 - Number.pow2 (-53))%Q
  | _ => False
  end.

(** The ids the hook asks PeerJS for: [zap-] and six more characters. *)
Definition is_short_id (id : string) : bool :=
  String.prefix "zap-" id
  && (String.length id =? 10)%nat
  && forallb alphanumeric (list_ascii_of_string (String.substring 4 6 id)).

End UsePeer.

(** ** Sizes as the component shows them *)

Module Display.

(** [x < y] *)
Definition lt (x y : number) : bool :=
  match x, y with
  | Number.Fin a, Number.Fin b => negb (Qle_bool b a)
  | Number.Fin _, Number.Infinity => true
  | _, _ => false
  end.

(** The decimal digits of an integer. *)
Definition digits (n : N) : string := NilZero.string_of_uint (N.to_uint n).

(** The digits of [n] with a point before the last [f] of them, zeros
    added in front where [n] has no more than [f] digits: the last steps
    of [Number.prototype.toFixed]. *)
Definition point (n : N) (f : nat) : string :=
  let m := digits n in
  if (f =? 0)%nat then m
  else
    let k := String.length m in
    let '(m, k) :=
      if (k <=? f)%nat
      then ((string_of_list_ascii (repeat "0"%char (f + 1 - k)) ++ m)%string,
            (f + 1)%nat)
      else (m, k) in
    (substring 0 (k - f) m ++ "." ++ substring (k - f) f m)%string.

Section ToString.

(** [Number::toString], which [toFixed] falls back to from [10^21] on
    and for [NaN] and [Infinity], and which a template literal applies. *)
Variable toString : number -> string.

(** [x.toFixed(fractionDigits)]: the integer [n] for which
    [n / 10^fractionDigits] is nearest to [x], the larger one of two. *)
Definition toFixed (x : number) (fractionDigits : nat) : string :=
  match x with
  | Number.Fin q =>
      let s := if Qle_bool 0 q then EmptyString else "-"%string in
      let a := if Qle_bool 0 q then q else (- q)%Q in
      if Qle_bool (inject_Z (10 ^ 21)) a
      then (s ++ toString (Number.Fin a))%string
      else
        let n :=
          Qfloor (a * inject_Z (10 ^ Z.of_nat fractionDigits) + (1 # 2)) in
        (s ++ point (Z.to_N n) fractionDigits)%string
  | _ => toString x
  end.

(** [formatSize(bytes)] *)
Definition formatSize (bytes : number) : string :=
  let K := Number.of_N 1024 in
  if lt bytes K then (toString bytes ++ " B")%string
  else if lt bytes (Number.mul K K)
  then (toFixed (Number.div bytes K) 1 ++ " KB")%string
  else if lt bytes (Number.mul (Number.mul K K) K)
  then (toFixed (Number.div bytes (Number.mul K K)) 1 ++ " MB")%string
  else (toFixed (Number.div bytes (Number.mul (Number.mul K K) K)) 2
        ++ " GB")%string.

End ToString.

End Display.

(** * Properties *)

(** ** Rounding to binary64 *)

Module NumberFacts.
Import Number.
Local Open Scope Q_scope.

Lemma two_neq_0 : ~ 2 == 0.
Proof. discriminate. Qed.

Lemma pow2_pos e : 0 < pow2 e.
Proof. apply Qpower_0_lt. reflexivity. Qed.

Lemma pow2_neq_0 e : ~ pow2 e == 0.
Proof. intros H. pose proof (pow2_pos e) as P. rewrite H in P. discriminate. Qed.

Lemma pow2_add a b : pow2 (a + b) == pow2 a * pow2 b.
Proof. apply Qpower_plus, two_neq_0. Qed.

Lemma pow2_sub a b : pow2 (a - b) == pow2 a / pow2 b.
Proof. apply Qpower_minus, two_neq_0. Qed.

Lemma pow2_le a b : (a <= b)%Z -> pow2 a <= pow2 b.
Proof. intros H. apply Qpower_le_compat_l; [exact H | discriminate]. Qed.

Lemma pow2_lt a b : (a < b)%Z -> pow2 a < pow2 b.
Proof. intros H. apply Qpower_lt_compat_l; [exact H | reflexivity]. Qed.

Lemma pow2_lt_inv a b : pow2 a < pow2 b -> (a < b)%Z.
Proof. intros H. apply (Qpower_lt_compat_l_inv 2); [exact H | reflexivity]. Qed.

Lemma pow2_Z n : (0 <= n)%Z -> pow2 n == inject_Z (2 ^ n).
Proof. intros H. unfold pow2. symmetry. apply (Zpower_Qpower 2 n H). Qed.

Lemma inject_Z_pos z : (0 < z)%Z -> 0 < inject_Z z.
Proof. intros H. change 0 with (inject_Z 0). rewrite <- Zlt_Qlt. exact H. Qed.

(** Comparing two fractions of integers by cross-multiplication. *)
Lemma Zfrac_le a b c d :
  (0 < b)%Z -> (0 < d)%Z -> (a * d <= c * b)%Z ->
  inject_Z a / inject_Z b <= inject_Z c / inject_Z d.
Proof.
  intros Hb Hd H.
  apply Qle_shift_div_l; [now apply inject_Z_pos |].
  assert (Hb' : ~ inject_Z b == 0).
  { intros E. pose proof (inject_Z_pos b Hb) as P. rewrite E in P. discriminate. }
  assert (E : inject_Z a / inject_Z b * inject_Z d
              == inject_Z a * inject_Z d / inject_Z b) by (field; exact Hb').
  rewrite E.
  apply Qle_shift_div_r; [now apply inject_Z_pos |].
  rewrite <- !inject_Z_mult, <- Zle_Qle. exact H.
Qed.

Lemma Zfrac_lt a b c d :
  (0 < b)%Z -> (0 < d)%Z -> (a * d < c * b)%Z ->
  inject_Z a / inject_Z b < inject_Z c / inject_Z d.
Proof.
  intros Hb Hd H.
  apply Qlt_shift_div_l; [now apply inject_Z_pos |].
  assert (Hb' : ~ inject_Z b == 0).
  { intros E. pose proof (inject_Z_pos b Hb) as P. rewrite E in P. discriminate. }
  assert (E : inject_Z a / inject_Z b * inject_Z d
              == inject_Z a * inject_Z d / inject_Z b) by (field; exact Hb').
  rewrite E.
  apply Qlt_shift_div_r; [now apply inject_Z_pos |].
  rewrite <- !inject_Z_mult, <- Zlt_Qlt. exact H.
Qed.

(** *** The binary logarithm *)

Lemma Qlog2_spec x : 0 < x -> pow2 (Qlog2 x) <= x /\ x < pow2 (Qlog2 x + 1).
Proof.
  destruct x as [p q]. intros Hx.
  assert (Hp : (0 < p)%Z).
  { unfold Qlt in Hx. simpl in Hx. lia. }
  pose proof (Z.log2_spec p Hp) as [Hp1 Hp2].
  pose proof (Z.log2_spec (Z.pos q) (Pos2Z.is_pos q)) as [Hq1 Hq2].
  pose proof (Z.log2_nonneg p) as Lp.
  pose proof (Z.log2_nonneg (Z.pos q)) as Lq.
  unfold Qlog2. cbn [Qnum Qden].
  set (lp := Z.log2 p) in *. set (lq := Z.log2 (Z.pos q)) in *.
  rewrite Z.pow_succ_r in Hp2, Hq2 by assumption.
  assert (P2 : (0 < 2 ^ lp)%Z) by (apply Z.pow_pos_nonneg; lia).
  assert (Q2 : (0 < 2 ^ lq)%Z) by (apply Z.pow_pos_nonneg; lia).
  assert (Ed : pow2 (lp - lq) == inject_Z (2 ^ lp) / inject_Z (2 ^ lq)).
  { rewrite pow2_sub, !pow2_Z by assumption. reflexivity. }
  assert (Ex : p # q == inject_Z p / inject_Z (Z.pos q)) by apply Qmake_Qdiv.
  destruct (Qle_bool (pow2 (lp - lq)) (p # q)) eqn:B.
  - apply Qle_bool_iff in B. split; [exact B |].
    rewrite pow2_add, Ed, Ex.
    assert (E : inject_Z (2 ^ lp) / inject_Z (2 ^ lq) * pow2 1
                == inject_Z (2 * 2 ^ lp) / inject_Z (2 ^ lq)).
    { rewrite inject_Z_mult. unfold pow2. simpl (2 ^ 1).
      change (inject_Z 2) with 2. field.
      intros E. pose proof (inject_Z_pos _ Q2) as P. rewrite E in P.
      discriminate. }
    rewrite E. apply Zfrac_lt; [lia | lia | nia].
  - assert (B' : p # q < pow2 (lp - lq)).
    { apply Qnot_le_lt. intros H. apply Qle_bool_iff in H. congruence. }
    split.
    + replace (lp - lq - 1)%Z with (lp - (lq + 1))%Z by lia.
      rewrite pow2_sub, !pow2_Z, Ex by lia.
      apply Zfrac_le; [apply Z.pow_pos_nonneg; lia | lia |].
      rewrite Z.pow_add_r by lia. nia.
    + replace (lp - lq - 1 + 1)%Z with (lp - lq)%Z by lia. exact B'.
Qed.

Lemma Qlog2_unique x l : pow2 l <= x -> x < pow2 (l + 1) -> Qlog2 x = l.
Proof.
  intros H1 H2.
  assert (Hx : 0 < x) by (eapply Qlt_le_trans; [apply (pow2_pos l) | exact H1]).
  destruct (Qlog2_spec x Hx) as [S1 S2].
  assert (Qlog2 x < l + 1)%Z
    by (apply pow2_lt_inv; eapply Qle_lt_trans; eassumption).
  assert (l < Qlog2 x + 1)%Z
    by (apply pow2_lt_inv; eapply Qle_lt_trans; eassumption).
  lia.
Qed.

Lemma Qlog2_comp x y : 0 < x -> x == y -> Qlog2 x = Qlog2 y.
Proof.
  intros Hx E. symmetry.
  destruct (Qlog2_spec x Hx) as [S1 S2].
  apply Qlog2_unique; rewrite <- E; assumption.
Qed.

Lemma Qlog2_mono x y : 0 < x -> x <= y -> (Qlog2 x <= Qlog2 y)%Z.
Proof.
  intros Hx Hxy.
  assert (Hy : 0 < y) by (eapply Qlt_le_trans; eassumption).
  destruct (Qlog2_spec x Hx) as [S1 _].
  destruct (Qlog2_spec y Hy) as [_ T2].
  assert (Qlog2 x < Qlog2 y + 1)%Z; [| lia].
  apply pow2_lt_inv.
  eapply Qle_lt_trans; [exact S1 |]. eapply Qle_lt_trans; eassumption.
Qed.

(** *** Rounding to the nearest integer *)

Lemma rne_floor s : (Qfloor s <= rne s <= Qfloor s + 1)%Z.
Proof.
  unfold rne. destruct (s - inject_Z (Qfloor s) ?= 1 # 2);
    [destruct (Z.even (Qfloor s)) | |]; lia.
Qed.

Lemma rne_comp s s' : s == s' -> rne s = rne s'.
Proof.
  intros E. unfold rne. rewrite <- (Qfloor_comp _ _ E).
  assert (C : (s - inject_Z (Qfloor s) ?= 1 # 2)
              = (s' - inject_Z (Qfloor s) ?= 1 # 2)).
  { apply Qcompare_comp; [| reflexivity].
    unfold Qminus. apply Qplus_comp; [exact E | reflexivity]. }
  rewrite C. reflexivity.
Qed.

Lemma rne_Z z : rne (inject_Z z) = z.
Proof.
  unfold rne. rewrite Qfloor_Z.
  assert (C : (inject_Z z - inject_Z z ?= 1 # 2) = Lt).
  { apply Qlt_alt. ring_simplify (inject_Z z - inject_Z z). reflexivity. }
  rewrite C. reflexivity.
Qed.

Lemma rne_mono s t : s <= t -> (rne s <= rne t)%Z.
Proof.
  intros H.
  pose proof (Qfloor_resp_le _ _ H) as F.
  destruct (Z.eq_dec (Qfloor s) (Qfloor t)) as [E | NE].
  - unfold rne. rewrite <- E.
    destruct (s - inject_Z (Qfloor s) ?= 1 # 2) eqn:Cs;
      destruct (t - inject_Z (Qfloor s) ?= 1 # 2) eqn:Ct;
      try (destruct (Z.even (Qfloor s))); try lia; exfalso;
      first [apply Qeq_alt in Cs | apply Qlt_alt in Cs | apply Qgt_alt in Cs];
      first [apply Qeq_alt in Ct | apply Qlt_alt in Ct | apply Qgt_alt in Ct];
      lra.
  - pose proof (rne_floor s). pose proof (rne_floor t). lia.
Qed.

(** *** Rounding to 53 bits *)

Lemma scaled_bounds x :
  0 < x ->
  pow2 52 <= x / pow2 (Qlog2 x - 52) /\ x / pow2 (Qlog2 x - 52) < pow2 53.
Proof.
  intros Hx. destruct (Qlog2_spec x Hx) as [S1 S2].
  pose proof (pow2_pos (Qlog2 x - 52)) as P.
  split.
  - apply Qle_shift_div_l; [exact P |].
    rewrite <- pow2_add.
    replace (52 + (Qlog2 x - 52))%Z with (Qlog2 x) by lia. exact S1.
  - apply Qlt_shift_div_r; [exact P |].
    rewrite <- pow2_add.
    replace (53 + (Qlog2 x - 52))%Z with (Qlog2 x + 1)%Z by lia. exact S2.
Qed.

Lemma round53_pos_eq x :
  0 < x ->
  round53 x = inject_Z (rne (x / pow2 (Qlog2 x - 52))) * pow2 (Qlog2 x - 52).
Proof.
  intros Hx. unfold round53.
  destruct (Qle_bool x 0) eqn:B; [| reflexivity].
  apply Qle_bool_iff in B. lra.
Qed.

Lemma round53_nonpos_eq x : x <= 0 -> round53 x = 0.
Proof.
  intros Hx. unfold round53. apply Qle_bool_iff in Hx. rewrite Hx. reflexivity.
Qed.

(** Equal rationals round to the same representation. *)
Lemma round53_comp x y : x == y -> round53 x = round53 y.
Proof.
  intros E. destruct (Qlt_le_dec 0 x) as [Hx | Hx].
  - rewrite (round53_pos_eq x Hx), (round53_pos_eq y) by (rewrite <- E; exact Hx).
    rewrite <- (Qlog2_comp x y Hx E).
    f_equal. f_equal. apply rne_comp.
    unfold Qdiv. apply Qmult_comp; [exact E | reflexivity].
  - rewrite (round53_nonpos_eq x Hx), (round53_nonpos_eq y); [reflexivity |].
    rewrite <- E. exact Hx.
Qed.

Lemma round53_lower x :
  0 < x -> pow2 (Qlog2 x) <= round53 x.
Proof.
  intros Hx. rewrite (round53_pos_eq x Hx).
  destruct (scaled_bounds x Hx) as [B1 _].
  assert (M : (2 ^ 52 <= rne (x / pow2 (Qlog2 x - 52)))%Z).
  { rewrite <- (rne_Z (2 ^ 52)). apply rne_mono.
    rewrite <- (pow2_Z 52) by lia. exact B1. }
  replace (Qlog2 x) with (52 + (Qlog2 x - 52))%Z at 1 by lia.
  rewrite pow2_add.
  apply Qmult_le_compat_r; [| apply Qlt_le_weak, pow2_pos].
  rewrite (pow2_Z 52) by lia. rewrite <- Zle_Qle. exact M.
Qed.

Lemma round53_upper x :
  0 < x -> round53 x <= pow2 (Qlog2 x + 1).
Proof.
  intros Hx. rewrite (round53_pos_eq x Hx).
  destruct (scaled_bounds x Hx) as [_ B2].
  assert (M : (rne (x / pow2 (Qlog2 x - 52)) <= 2 ^ 53)%Z).
  { rewrite <- (rne_Z (2 ^ 53)). apply rne_mono.
    rewrite <- (pow2_Z 53) by lia. apply Qlt_le_weak. exact B2. }
  replace (Qlog2 x + 1)%Z with (53 + (Qlog2 x - 52))%Z by lia.
  rewrite pow2_add.
  apply Qmult_le_compat_r; [| apply Qlt_le_weak, pow2_pos].
  rewrite (pow2_Z 53) by lia. rewrite <- Zle_Qle. exact M.
Qed.

Lemma round53_nonneg x : 0 <= round53 x.
Proof.
  destruct (Qlt_le_dec 0 x) as [Hx | Hx].
  - eapply Qle_trans; [| apply (round53_lower x Hx)].
    apply Qlt_le_weak, pow2_pos.
  - rewrite (round53_nonpos_eq x Hx). apply Qle_refl.
Qed.

(** Rounding is monotone. *)
Lemma round53_mono x y : x <= y -> round53 x <= round53 y.
Proof.
  intros H. destruct (Qlt_le_dec 0 x) as [Hx | Hx].
  - assert (Hy : 0 < y) by (eapply Qlt_le_trans; eassumption).
    pose proof (Qlog2_mono x y Hx H) as L.
    destruct (Z.eq_dec (Qlog2 x) (Qlog2 y)) as [E | NE].
    + rewrite (round53_pos_eq x Hx), (round53_pos_eq y Hy), <- E.
      apply Qmult_le_compat_r; [| apply Qlt_le_weak, pow2_pos].
      rewrite <- Zle_Qle. apply rne_mono.
      apply Qmult_le_compat_r; [exact H |].
      apply Qlt_le_weak, Qinv_lt_0_compat, pow2_pos.
    + eapply Qle_trans; [apply (round53_upper x Hx) |].
      eapply Qle_trans; [| apply (round53_lower y Hy)].
      apply pow2_le. lia.
  - rewrite (round53_nonpos_eq x Hx). apply round53_nonneg.
Qed.

(** A number with at most 53 significant bits is its own rounding. *)
Lemma round53_exact m e :
  (0 < m < 2 ^ 53)%Z ->
  round53 (inject_Z m * pow2 e) == inject_Z m * pow2 e.
Proof.
  intros [M1 M2].
  pose proof (Z.log2_spec m M1) as [L1 L2].
  pose proof (Z.log2_nonneg m) as L0.
  assert (L53 : (Z.log2 m < 53)%Z) by (apply Z.log2_lt_pow2; lia).
  set (l := Z.log2 m) in *.
  assert (Hx : 0 < inject_Z m * pow2 e).
  { apply Qmult_lt_0_compat; [now apply inject_Z_pos | apply pow2_pos]. }
  assert (El : Qlog2 (inject_Z m * pow2 e) = (l + e)%Z).
  { apply Qlog2_unique.
    - rewrite pow2_add. apply Qmult_le_compat_r; [| apply Qlt_le_weak, pow2_pos].
      rewrite pow2_Z by lia. rewrite <- Zle_Qle. exact L1.
    - replace (l + e + 1)%Z with (Z.succ l + e)%Z by lia.
      rewrite pow2_add. apply Qmult_lt_compat_r; [apply pow2_pos |].
      rewrite pow2_Z by lia. rewrite <- Zlt_Qlt. exact L2. }
  rewrite (round53_pos_eq _ Hx), El.
  assert (Es : inject_Z m * pow2 e / pow2 (l + e - 52)
               == inject_Z (m * 2 ^ (52 - l))).
  { rewrite inject_Z_mult, <- pow2_Z by lia.
    replace (l + e - 52)%Z with (e - (52 - l))%Z by lia.
    rewrite pow2_sub. field.
    split; apply pow2_neq_0. }
  rewrite (rne_comp _ _ Es), rne_Z.
  rewrite inject_Z_mult, <- pow2_Z by lia.
  rewrite <- Qmult_assoc, <- pow2_add.
  replace (52 - l + (l + e - 52))%Z with e by lia. reflexivity.
Qed.

Lemma round53_Z z : (0 <= z < 2 ^ 53)%Z -> round53 (inject_Z z) == inject_Z z.
Proof.
  intros [Z1 Z2]. destruct (Z.eq_dec z 0%Z) as [-> | NZ]; [reflexivity |].
  assert (E : inject_Z z == inject_Z z * pow2 0)
    by (unfold pow2; simpl; ring).
  rewrite (round53_comp _ _ E). rewrite round53_exact by lia.
  symmetry. exact E.
Qed.

Lemma round53_dyadic m e :
  (0 <= m < 2 ^ 53)%Z ->
  round53 (inject_Z m * pow2 e) == inject_Z m * pow2 e.
Proof.
  intros [M1 M2]. destruct (Z.eq_dec m 0%Z) as [-> | NZ].
  - rewrite round53_nonpos_eq; [ring |].
    assert (E : inject_Z 0 * pow2 e == 0) by ring.
    rewrite E. apply Qle_refl.
  - apply round53_exact. lia.
Qed.

(** *** Dividing a size by the chunk size *)

Lemma Zceil_div a b :
  (0 < b)%Z -> (- (- a / b) = (a + b - 1) / b)%Z.
Proof.
  intros Hb.
  pose proof (Z.div_mod (- a) b ltac:(lia)).
  pose proof (Z.mod_pos_bound (- a) b Hb).
  pose proof (Z.div_mod (a + b - 1) b ltac:(lia)).
  pose proof (Z.mod_pos_bound (a + b - 1) b Hb).
  nia.
Qed.

Lemma Qceiling_frac a b :
  (0 < b)%Z -> Qceiling (inject_Z a / inject_Z b) = ((a + b - 1) / b)%Z.
Proof.
  intros Hb. unfold Qceiling.
  assert (E : - (inject_Z a / inject_Z b) == inject_Z (- a) / inject_Z b).
  { rewrite inject_Z_opp. field.
    intros Z. pose proof (inject_Z_pos b Hb) as P. rewrite Z in P. discriminate. }
  rewrite (Qfloor_comp _ _ E), <- Zdiv_Qdiv. apply Zceil_div, Hb.
Qed.

Lemma is_zero_of_N n : is_zero (inject_Z (Z.of_N n)) = false <-> n <> 0%N.
Proof.
  unfold is_zero. split.
  - intros H ->. discriminate H.
  - intros H. destruct (Qeq_bool (inject_Z (Z.of_N n)) 0) eqn:B; [| reflexivity].
    apply Qeq_bool_iff in B. unfold Qeq in B. simpl in B. lia.
Qed.

(** [Math.ceil(size / c)] for [c] a power of two: the quotient is exact. *)
Lemma ceil_div_pow2 s k :
  (s < 2 ^ 53)%N ->
  to_N (Math_ceil (div (of_N s) (of_N (2 ^ k)))) = ((s + 2 ^ k - 1) / 2 ^ k)%N.
Proof.
  intros Hs.
  assert (Hk : (2 ^ k <> 0)%N) by (apply N.pow_nonzero; discriminate).
  unfold div, of_N, Math_ceil, to_N.
  rewrite (proj2 (is_zero_of_N _) Hk), Qfloor_Z.
  assert (E : inject_Z (Z.of_N s) / inject_Z (Z.of_N (2 ^ k))
              == inject_Z (Z.of_N s) * pow2 (- Z.of_N k)).
  { rewrite N2Z.inj_pow. change (Z.of_N 2) with 2%Z.
    rewrite <- pow2_Z by lia. unfold pow2. rewrite Qpower_opp. reflexivity. }
  assert (R : round53 (inject_Z (Z.of_N s) / inject_Z (Z.of_N (2 ^ k)))
              == inject_Z (Z.of_N s) / inject_Z (Z.of_N (2 ^ k))).
  { rewrite (round53_comp _ _ E), E. apply round53_dyadic.
    change (2 ^ 53)%Z with (Z.of_N (2 ^ 53)). lia. }
  rewrite (Qceiling_comp _ _ R), Qceiling_frac by lia.
  rewrite <- (N2Z.id ((s + 2 ^ k - 1) / 2 ^ k)).
  f_equal. rewrite N2Z.inj_div, N2Z.inj_sub, N2Z.inj_add by lia. reflexivity.
Qed.

(** *** The progress percentage *)

Lemma percent_eq a n :
  n <> 0%N ->
  percent a n
  = Fin (inject_Z (Qfloor (round53 (round53 (inject_Z (Z.of_N a)
                                              / inject_Z (Z.of_N n))
                                    * inject_Z 100) + (1 # 2)))).
Proof.
  intros Hn. unfold percent, div, mul, Math_round, of_N.
  rewrite (proj2 (is_zero_of_N n) Hn). reflexivity.
Qed.


Lemma percent_mono a b n :
  n <> 0%N -> (a <= b)%N -> le (percent a n) (percent b n).
Proof.
  intros Hn Hab. rewrite !percent_eq by exact Hn. unfold le.
  rewrite <- Zle_Qle. apply Qfloor_resp_le.
  apply Qplus_le_compat; [| apply Qle_refl].
  apply round53_mono.
  apply Qmult_le_compat_r; [| discriminate].
  apply round53_mono.
  apply Qmult_le_compat_r.
  - rewrite <- Zle_Qle. lia.
  - apply Qlt_le_weak, Qinv_lt_0_compat, inject_Z_pos. lia.
Qed.

Lemma percent_full n : n <> 0%N -> percent n n = Fin 100.
Proof.
  intros Hn. rewrite percent_eq by exact Hn.
  assert (E1 : inject_Z (Z.of_N n) / inject_Z (Z.of_N n) == 1).
  { field. intros Z. unfold Qeq in Z. simpl in Z. lia. }
  rewrite (round53_comp _ _ E1).
  assert (E2 : round53 1 * inject_Z 100 == 100) by (vm_compute; reflexivity).
  rewrite (round53_comp _ _ E2).
  vm_compute. reflexivity.
Qed.

Lemma percent_nonneg a n : n <> 0%N -> le (Fin 0) (percent a n).
Proof.
  intros Hn. rewrite percent_eq by exact Hn. unfold le.
  change 0 with (inject_Z 0). rewrite <- Zle_Qle.
  change 0%Z with (Qfloor (inject_Z 0)). apply Qfloor_resp_le.
  pose proof (round53_nonneg
                (round53 (inject_Z (Z.of_N a) / inject_Z (Z.of_N n))
                 * inject_Z 100)) as P.
  change (inject_Z 0) with 0. lra.
Qed.

Lemma percent_le_100 a n :
  n <> 0%N -> (a <= n)%N -> le (percent a n) (Fin 100).
Proof.
  intros Hn Han. rewrite <- (percent_full n Hn).
  apply percent_mono; assumption.
Qed.

(** The rounding shows: 23 chunks of 40 are reported as 57 percent, where
    the exact quotient 57.5 would round to 58. *)
Example percent_23_40 : percent 23 40 = Fin 57.
Proof. vm_compute. reflexivity. Qed.

(** The model against the Standard Library's binary64 operations, for
    every transfer of up to 64 chunks. *)
Example percent_binary64 :
  forallb (fun n => forallb (fun a => agrees_with_binary64 (N.of_nat a)
                                                         (N.of_nat n))
                            (seq 1 n))
          (seq 1 64)
  = true.
Proof. vm_compute. reflexivity. Qed.

End NumberFacts.

(** ** The sender *)

Module SenderFacts.
Import FileSender.

Section Chunking.
Context {X : Type} (l : list X) (c : nat).

(** Consecutive pieces of [c] elements make up a prefix. *)
Lemma concat_pieces n :
  concat (map (fun i => take c (drop (i * c) l)) (seq 0 n)) = take (n * c) l.
Proof.
  induction n as [| n IH]; [reflexivity |].
  rewrite seq_S, map_app, concat_app, IH. simpl.
  rewrite app_nil_r, take_take_drop. f_equal. lia.
Qed.
End Chunking.

Lemma ceil_div_bounds s c :
  (c <> 0)%N ->
  (s <= c * ((s + c - 1) / c)
   /\ (s <> 0 -> c * ((s + c - 1) / c - 1) < s)
   /\ (s = 0 -> (s + c - 1) / c = 0))%N.
Proof.
  intros Hc.
  pose proof (N.div_mod (s + c - 1) c Hc) as D.
  pose proof (N.mod_lt (s + c - 1) c Hc) as R.
  split; [| split]; [| | intros ->; apply N.div_small; lia];
    set (q := ((s + c - 1) / c)%N) in *;
    set (r := ((s + c - 1) mod c)%N) in *; clearbody q r; nia.
Qed.

Lemma CHUNK_SIZE_pow2 : CHUNK_SIZE = (2 ^ 14)%N.
Proof. reflexivity. Qed.

Lemma chunk_count_eq f :
  (size f < 2 ^ 53)%N ->
  chunk_count f = ((size f + CHUNK_SIZE - 1) / CHUNK_SIZE)%N.
Proof.
  intros H. unfold chunk_count. rewrite CHUNK_SIZE_pow2.
  apply NumberFacts.ceil_div_pow2, H.
Qed.

(** What [slice] returns for the bounds the loop computes. *)
Lemma payload_eq f i :
  payload f i
  = take (N.to_nat CHUNK_SIZE)
         (drop (N.to_nat i * N.to_nat CHUNK_SIZE) (file_bytes f)).
Proof.
  unfold payload, slice, size.
  set (c := CHUNK_SIZE). set (l := file_bytes f).
  rewrite N2Nat.inj_mul.
  destruct (N.le_gt_cases (i * c + c) (N.of_nat (length l))) as [H | H].
  - rewrite N.min_l by exact H. f_equal. lia.
  - rewrite N.min_r by lia.
    rewrite !take_ge; [reflexivity | |]; rewrite length_drop; lia.
Qed.

Lemma length_payload f i :
  let s := size f in
  let n := ((s + CHUNK_SIZE - 1) / CHUNK_SIZE)%N in
  (i < n)%N ->
  N.of_nat (length (payload f i))
  = if (i + 1 =? n)%N then (s - CHUNK_SIZE * (n - 1))%N else CHUNK_SIZE.
Proof.
  intros s n Hi. rewrite payload_eq, length_take, length_drop.
  assert (Hc : CHUNK_SIZE <> 0%N) by discriminate.
  destruct (ceil_div_bounds s CHUNK_SIZE Hc) as (B1 & B2 & B3).
  fold n in B1, B2, B3. unfold size in s.
  set (c := CHUNK_SIZE) in *.
  assert (Hs : s <> 0%N) by (intros E; rewrite (B3 E) in Hi; lia).
  specialize (B2 Hs).
  destruct (i + 1 =? n)%N eqn:E.
  - apply N.eqb_eq in E. subst s. nia.
  - apply N.eqb_neq in E. subst s. nia.
Qed.

Lemma frames_app {A} (es1 es2 : list (effect A)) :
  frames (es1 ++ es2) = frames es1 ++ frames es2.
Proof. apply flat_map_app. Qed.


Section Send.
Context {A : Type} (this : FileSender.t A).

Lemma send_loop_eq fuel n i :
  (N.to_nat (n - i) <= fuel)%nat ->
  send_loop this fuel n i
  = flat_map (send_chunk this n)
             (map N.of_nat (seq (N.to_nat i) (N.to_nat (n - i)))).
Proof.
  revert i. induction fuel as [| fuel IH]; intros i Hf.
  - replace (N.to_nat (n - i)) with 0%nat by lia.
    simpl. destruct (i <? n)%N; reflexivity.
  - simpl. destruct (i <? n)%N eqn:Lt.
    + apply N.ltb_lt in Lt.
      replace (N.to_nat (n - i)) with (S (N.to_nat (n - (i + 1)))) by lia.
      rewrite IH by lia. simpl. rewrite N2Nat.id.
      replace (N.to_nat (i + 1)) with (S (N.to_nat i)) by lia. reflexivity.
    + apply N.ltb_ge in Lt.
      replace (N.to_nat (n - i)) with 0%nat by lia. reflexivity.
Qed.

Lemma send_eq :
  send this
  = [ConnectionSend
       (Metadata (mkMetadata (file_name (file this)) (file_type (file this))
                             (size (file this)) (chunk_count (file this))))]
    ++ flat_map (send_chunk this (chunk_count (file this)))
                (indices (chunk_count (file this)))
    ++ [ConnectionSend Complete].
Proof.
  unfold send. fold (chunk_count (file this)).
  rewrite send_loop_eq by lia. unfold indices.
  rewrite N.sub_0_r. reflexivity.
Qed.

Lemma frames_send_chunk n i :
  frames (send_chunk this n i) = [Chunk (mkChunk i (payload (file this) i))].
Proof.
  unfold send_chunk, frames. simpl.
  destruct (onProgress this); destruct (i mod 10 =? 0)%N; reflexivity.
Qed.

Lemma frames_send :
  frames (send this)
  = Metadata (mkMetadata (file_name (file this)) (file_type (file this))
                         (size (file this)) (chunk_count (file this)))
    :: map (fun i => Chunk (mkChunk i (payload (file this) i)))
           (indices (chunk_count (file this)))
    ++ [Complete].
Proof.
  rewrite send_eq, !frames_app. change (frames [ConnectionSend ?m]) with [m].
  simpl. f_equal. f_equal.
  induction (indices (chunk_count (file this))) as [| i rest IH];
    [reflexivity |].
  cbn [flat_map map]. rewrite frames_app, frames_send_chunk, IH. reflexivity.
Qed.
End Send.

Lemma in_order_payloads f n :
  map (fun i => mkChunk i (payload f i)) (indices n)
  = in_order (map (payload f) (indices n)).
Proof.
  apply list_eq. intros i. unfold in_order, indices.
  rewrite list_lookup_imap, !list_lookup_fmap.
  destruct (seq 0 (N.to_nat n) !! i) as [j |] eqn:E; [| reflexivity].
  apply lookup_seq in E as [-> _]. reflexivity.
Qed.

Lemma concat_payloads f :
  let n := ((size f + CHUNK_SIZE - 1) / CHUNK_SIZE)%N in
  concat (map (payload f) (indices n)) = file_bytes f.
Proof.
  intros n. unfold indices. rewrite map_map.
  erewrite map_ext; [| intros i; rewrite payload_eq, Nat2N.id; reflexivity].
  rewrite concat_pieces. apply take_ge.
  assert (Hc : CHUNK_SIZE <> 0%N) by discriminate.
  destruct (ceil_div_bounds (size f) CHUNK_SIZE Hc) as (B1 & _).
  fold n in B1. unfold size in B1. set (c := CHUNK_SIZE) in *. nia.
Qed.

Section Progress.
Context {A : Type} (f : File) (g : number -> A).

Let this : FileSender.t A := FileSender.mk f (Some g).





End Progress.

End SenderFacts.

(** ** Sequences of percentages *)

Module ProgressFacts.






End ProgressFacts.

(** ** Arrays *)

Module ArrayFacts.

Lemma set_commute a i j x y :
  i <> j ->
  Array.set (Array.set a i x) j y = Array.set (Array.set a j y) i x.
Proof.
  intros H. unfold Array.set. cbn. f_equal.
  - destruct (i <? Array.max_length)%N, (j <? Array.max_length)%N; lia.
  - apply insert_insert_ne. congruence.
Qed.

(** Storing chunks with distinct indices in another order gives the same
    array. *)
Lemma store_Permutation cs cs' :
  cs ≡ₚ cs' -> NoDup (index <$> cs) -> forall a, store a cs = store a cs'.
Proof.
  induction 1 as [| c cs cs' P IH | c1 c2 cs | cs1 cs2 cs3 P12 IH12 P23 IH23];
    intros ND a.
  - reflexivity.
  - cbn. apply IH. rewrite fmap_cons in ND. now apply NoDup_cons in ND.
  - cbn. rewrite !fmap_cons in ND.
    apply NoDup_cons in ND as [NI _].
    rewrite set_commute; [reflexivity |].
    intros E. apply NI. rewrite E. left.
  - rewrite IH12 by exact ND. apply IH23.
    rewrite <- P12. exact ND.
Qed.

Lemma NoDup_in_order ds : NoDup (index <$> in_order ds).
Proof.
  assert (E : index <$> in_order ds = N.of_nat <$> seq 0 (length ds)).
  { apply list_eq. intros i. unfold in_order.
    rewrite !list_lookup_fmap, list_lookup_imap.
    destruct (ds !! i) as [d |] eqn:D; cbn.
    - assert (S : seq 0 (length ds) !! i = Some i).
      { apply lookup_seq. split; [reflexivity |].
        apply lookup_lt_is_Some. eauto. }
      rewrite S. reflexivity.
    - apply lookup_ge_None in D.
      rewrite (lookup_ge_None_2 (seq 0 (length ds)) i);
        [reflexivity | rewrite length_seq; exact D]. }
  rewrite E. apply NoDup_fmap; [exact Nat2N.inj | apply NoDup_seq].
Qed.

Lemma in_order_snoc ds d :
  in_order (ds ++ [d]) = in_order ds ++ [mkChunk (N.of_nat (length ds)) d].
Proof.
  unfold in_order. rewrite imap_app. cbn. rewrite Nat.add_0_r. reflexivity.
Qed.

Lemma store_snoc a cs c :
  store a (cs ++ [c]) = Array.set (store a cs) (index c) (data c).
Proof. unfold store. rewrite foldl_app. reflexivity. Qed.

(** Chunks stored in index order: the elements and the length. *)
Lemma store_in_order_get a ds i :
  Array.get (store a (in_order ds)) (N.of_nat i)
  = match ds !! i with
    | Some d => Some d
    | None => Array.get a (N.of_nat i)
    end.
Proof.
  induction ds as [| d ds IH] using rev_ind; [reflexivity |].
  rewrite in_order_snoc, store_snoc. unfold Array.get, Array.set. cbn.
  destruct (decide (i = length ds)) as [-> | NE].
  - rewrite lookup_insert_eq, list_lookup_middle by reflexivity. reflexivity.
  - rewrite lookup_insert_ne by lia. fold (Array.get (store a (in_order ds)) (N.of_nat i)).
    rewrite IH. destruct (decide (i < length ds)%nat) as [Lt | Ge].
    + rewrite lookup_app_l by exact Lt. reflexivity.
    + rewrite (lookup_ge_None_2 ds i) by lia.
      rewrite (lookup_ge_None_2 (ds ++ [d]) i); [reflexivity |].
      rewrite length_app. cbn. lia.
Qed.

Lemma store_in_order_length a ds :
  (N.of_nat (length ds) <= Array.max_length)%N ->
  Array.length (store a (in_order ds))
  = N.max (Array.length a) (N.of_nat (length ds)).
Proof.
  induction ds as [| d ds IH] using rev_ind; intros H.
  - cbn. lia.
  - rewrite length_app in *. cbn in H.
    rewrite in_order_snoc, store_snoc. unfold Array.set. cbn [Array.length index].
    rewrite IH by lia.
    destruct (N.of_nat (length ds) <? Array.max_length)%N eqn:E.
    + cbn. lia.
    + apply N.ltb_ge in E. lia.
Qed.

(** A freshly allocated array filled in index order iterates to the
    payloads. *)
Lemma to_list_store_in_order n ds :
  n = N.of_nat (length ds) ->
  (n <= Array.max_length)%N ->
  Array.to_list (store (Array.mk n ∅) (in_order ds)) = map Some ds.
Proof.
  intros -> H. unfold Array.to_list.
  rewrite store_in_order_length by exact H. cbn [Array.length].
  rewrite N.max_id, Nat2N.id.
  apply list_eq. intros i. rewrite !list_lookup_fmap.
  destruct (ds !! i) as [d |] eqn:D; cbn.
  - assert (S : seq 0 (length ds) !! i = Some i).
    { apply lookup_seq. split; [reflexivity |]. apply lookup_lt_is_Some. eauto. }
    rewrite S. cbn. rewrite store_in_order_get, D. reflexivity.
  - apply lookup_ge_None in D.
    rewrite (lookup_ge_None_2 (seq 0 (length ds)) i);
      [reflexivity | rewrite length_seq; exact D].
Qed.

Lemma flat_map_part_bytes ds : flat_map part_bytes (map Some ds) = concat ds.
Proof.
  induction ds as [| d ds IH]; [reflexivity |]. cbn. rewrite IH. reflexivity.
Qed.

(** The first index that is not an array index: a write there is kept
    as a property and iteration stops short of it. *)
Lemma to_list_store_overflow ds d :
  N.of_nat (length ds) = Array.max_length ->
  Array.to_list (store Array.empty (in_order (ds ++ [d]))) = map Some ds.
Proof.
  intros H. rewrite in_order_snoc, store_snoc. unfold Array.to_list.
  assert (L : Array.length
                (Array.set (store Array.empty (in_order ds))
                           (N.of_nat (length ds)) d)
              = N.of_nat (length ds)).
  { unfold Array.set. cbn [Array.length]. rewrite <- H, N.ltb_irrefl.
    rewrite store_in_order_length by (rewrite H; reflexivity).
    unfold Array.empty. cbn [Array.length]. apply N.max_r, N.le_0_l. }
  cbn [index data]. rewrite L, Nat2N.id.
  apply list_eq. intros i. rewrite !list_lookup_fmap.
  destruct (ds !! i) as [x |] eqn:D.
  - assert (Hi : (i < length ds)%nat) by (apply lookup_lt_is_Some; eauto).
    assert (S : seq 0 (length ds) !! i = Some i)
      by (apply lookup_seq; split; [reflexivity | exact Hi]).
    rewrite S. cbn [fmap option_fmap option_map]. f_equal.
    unfold Array.get, Array.set. cbn [Array.elems].
    rewrite lookup_insert_ne by lia.
    fold (Array.get (store Array.empty (in_order ds)) (N.of_nat i)).
    rewrite store_in_order_get, D. reflexivity.
  - apply lookup_ge_None in D.
    rewrite (lookup_ge_None_2 (seq 0 (length ds)) i);
      [reflexivity | rewrite length_seq; exact D].
Qed.

Lemma data_in_order ds : data <$> in_order ds = ds.
Proof.
  apply list_eq. intros i. unfold in_order.
  rewrite list_lookup_fmap, list_lookup_imap.
  destruct (ds !! i); reflexivity.
Qed.

End ArrayFacts.

(** ** The receiver *)

Module ReceiverFacts.
Import FileReceiver.

(** Runs the listener on a frame of known shape. *)
Ltac run_listener :=
  unfold listener, try_catch, handle;
  unfold mbind, M_bind, bind, message_type, new_Array, ret, throw;
  cbn -[Array.new Array.set new_Blob Number.Math_round Number.mul Number.div].

Section Listener.
Context {A : Type} (cb : callbacks A).

Lemma listener_nullish this :
  listener cb Nullish this
  = (this, option_list (option_map (fun f => f TypeError) (onError cb)),
     Return tt).
Proof. reflexivity. Qed.

Lemma listener_unrecognized this :
  listener cb Unrecognized this = (this, [], Return tt).
Proof. reflexivity. Qed.

Lemma listener_metadata this m a :
  Array.new (totalChunks m) = Some a ->
  listener cb (Message (Metadata m)) this
  = (mk a (Some m) 0, option_list (onStart cb), Return tt).
Proof.
  intros H. run_listener. rewrite H. reflexivity.
Qed.

Lemma listener_metadata_rejected this m :
  Array.new (totalChunks m) = None ->
  listener cb (Message (Metadata m)) this
  = (mk (chunks this) (Some m) (receivedChunks this),
     option_list (option_map (fun f => f RangeError) (onError cb)),
     Return tt).
Proof.
  intros H. run_listener. rewrite H. reflexivity.
Qed.

Lemma listener_chunk this md c :
  metadata this = Some md ->
  listener cb (Message (Chunk c)) this
  = (mk (Array.set (chunks this) (index c) (data c)) (Some md)
        (receivedChunks this + 1),
     option_list
       (option_map
          (fun f => f (Number.percent (receivedChunks this + 1)
                                      (totalChunks md)))
          (onProgress cb)),
     Return tt).
Proof.
  destruct this as [a md' rc]. cbn. intros ->. run_listener. reflexivity.
Qed.

Lemma listener_chunk_idle this c :
  metadata this = None ->
  listener cb (Message (Chunk c)) this = (this, [], Return tt).
Proof.
  destruct this as [a md' rc]. cbn. intros ->. run_listener. reflexivity.
Qed.

Lemma listener_complete this md :
  metadata this = Some md ->
  listener cb (Message Complete) this
  = (init,
     option_list
       (option_map
          (fun f => f (new_Blob (chunks this) (fileType md))
                      (fileName md) (fileType md))
          (onComplete cb)),
     Return tt).
Proof.
  destruct this as [a md' rc]. cbn. intros ->. run_listener.
  rewrite app_nil_r. reflexivity.
Qed.

Lemma listener_complete_idle this :
  metadata this = None ->
  listener cb (Message Complete) this = (this, [], Return tt).
Proof.
  destruct this as [a md' rc]. cbn. intros ->. run_listener. reflexivity.
Qed.
End Listener.

Lemma percents_cons r total n :
  percents r total (S n)
  = Number.percent (r + 1) total :: percents (r + 1) total n.
Proof.
  unfold percents. cbn [seq map]. f_equal.
  rewrite <- seq_shift, map_map. apply map_ext. intros k. f_equal. lia.
Qed.

Section Deliver.
Context {A : Type} (cb : callbacks A).

Lemma deliver_cons this received rest :
  deliver cb this (received :: rest)
  = ((deliver cb (on_data cb this received).1 rest).1,
     (on_data cb this received).2
     ++ (deliver cb (on_data cb this received).1 rest).2).
Proof.
  cbn [deliver]. destruct (on_data cb this received) as [this1 out1].
  cbn. destruct (deliver cb this1 rest) as [this2 out2]. reflexivity.
Qed.

Lemma deliver_app this l1 l2 :
  deliver cb this (l1 ++ l2)
  = ((deliver cb (deliver cb this l1).1 l2).1,
     (deliver cb this l1).2 ++ (deliver cb (deliver cb this l1).1 l2).2).
Proof.
  revert this. induction l1 as [| received l1 IH]; intros this.
  - cbn. destruct (deliver cb this l2). reflexivity.
  - rewrite <- app_comm_cons, !deliver_cons, IH. cbn.
    rewrite app_assoc. reflexivity.
Qed.

Lemma on_data_listener this received this' out r :
  listener cb received this = (this', out, r) ->
  on_data cb this received = (this', out).
Proof. intros H. unfold on_data. rewrite H. reflexivity. Qed.

(** The chunk frames of a transfer, received while collecting. *)
Lemma deliver_chunks cs : forall this md,
  metadata this = Some md ->
  deliver cb this (chunk_frames cs)
  = (mk (store (chunks this) cs) (Some md)
        (receivedChunks this + N.of_nat (length cs)),
     progress_calls cb
       (percents (receivedChunks this) (totalChunks md) (length cs))).
Proof.
  induction cs as [| c cs IH]; intros this md H.
  - destruct this as [a md' rc]. cbn in *. subst md'.
    rewrite N.add_0_r. reflexivity.
  - unfold chunk_frames. cbn [map]. fold (chunk_frames cs).
    rewrite deliver_cons.
    rewrite (on_data_listener _ _ _ _ _ (listener_chunk cb this md c H)).
    cbn [fst snd]. rewrite (IH _ md) by reflexivity.
    cbn [chunks receivedChunks fst snd length].
    rewrite percents_cons. unfold progress_calls. cbn [flat_map store foldl].
    f_equal. f_equal. lia.
Qed.

(** A whole transfer whose metadata frame is accepted. *)
Lemma deliver_transfer this m cs a :
  Array.new (totalChunks m) = Some a ->
  deliver cb this (transfer m cs)
  = (init,
     option_list (onStart cb)
     ++ progress_calls cb (percents 0 (totalChunks m) (length cs))
     ++ option_list
          (option_map
             (fun f => f (new_Blob (store a cs) (fileType m))
                         (fileName m) (fileType m))
             (onComplete cb))).
Proof.
  intros H. unfold transfer. rewrite deliver_cons.
  rewrite (on_data_listener _ _ _ _ _ (listener_metadata cb this m a H)).
  cbn [fst snd]. rewrite deliver_app.
  rewrite (deliver_chunks cs _ m) by reflexivity.
  cbn [fst snd chunks receivedChunks]. rewrite deliver_cons.
  erewrite on_data_listener by (apply listener_complete; reflexivity).
  cbn [fst snd deliver chunks]. rewrite app_nil_r. reflexivity.
Qed.

(** A whole transfer whose metadata frame is rejected: the chunks go
    into the array at hand, the counter runs on. *)
Lemma deliver_transfer_rejected this m cs :
  Array.new (totalChunks m) = None ->
  deliver cb this (transfer m cs)
  = (init,
     option_list (option_map (fun f => f RangeError) (onError cb))
     ++ progress_calls cb
          (percents (receivedChunks this) (totalChunks m) (length cs))
     ++ option_list
          (option_map
             (fun f => f (new_Blob (store (chunks this) cs) (fileType m))
                         (fileName m) (fileType m))
             (onComplete cb))).
Proof.
  intros H. unfold transfer. rewrite deliver_cons.
  rewrite (on_data_listener _ _ _ _ _
             (listener_metadata_rejected cb this m H)).
  cbn [fst snd]. rewrite deliver_app.
  rewrite (deliver_chunks cs _ m) by reflexivity.
  cbn [fst snd chunks receivedChunks]. rewrite deliver_cons.
  erewrite on_data_listener by (apply listener_complete; reflexivity).
  cbn [fst snd deliver chunks]. rewrite app_nil_r. reflexivity.
Qed.
End Deliver.

Lemma progress_calls_recorder ps :
  progress_calls recorder ps = map Progress ps.
Proof.
  unfold progress_calls.
  induction ps as [| p ps IH]; cbn in *; congruence.
Qed.



(** The chunk frames of a transfer received in index order, after a
    metadata frame that was accepted. *)
Lemma deliver_in_order this m payloads :
  totalChunks m = N.of_nat (length payloads) ->
  (totalChunks m <= Array.max_length)%N ->
  deliver recorder this (transfer m (in_order payloads))
  = (init,
     Started
     :: map Progress (percents 0 (totalChunks m) (length payloads))
     ++ [Completed (mkBlob (concat payloads) (normalize_type (fileType m)))
                   (fileName m) (fileType m)]).
Proof.
  intros Hn Hmax.
  rewrite (deliver_transfer _ _ _ _ (Array.mk (totalChunks m) ∅)).
  - unfold in_order at 1. rewrite length_imap, progress_calls_recorder.
    unfold new_Blob.
    rewrite (ArrayFacts.to_list_store_in_order _ _ Hn Hmax).
    rewrite ArrayFacts.flat_map_part_bytes. reflexivity.
  - unfold Array.new. apply N.leb_le in Hmax. rewrite Hmax. reflexivity.
Qed.

(** The only frames whose handling raises an exception. *)
Lemma raises_inv {A} (cb : callbacks A) this received e :
  raises cb this received e ->
  (received = Nullish /\ e = ThrownError TypeError)
  \/ (exists m, received = Message (Metadata m)
                /\ Array.new (totalChunks m) = None
                /\ e = ThrownError RangeError).
Proof.
  unfold raises. destruct this as [a md rc].
  destruct received as [| [m | c |] |].
  - cbn. intros [= <-]. left. split; reflexivity.
  - destruct (Array.new (totalChunks m)) as [a' |] eqn:E.
    + run_listener. rewrite E. cbn. discriminate.
    + run_listener. rewrite E. cbn. intros [= <-]. right. eauto.
  - destruct md; run_listener; discriminate.
  - destruct md; run_listener; discriminate.
  - cbn. discriminate.
Qed.

End ReceiverFacts.

(** * The transfer protocol *)

(** ** Chunking *)

(** C1: for a file of size [S], [send] hands the connection one Metadata
    frame with the file's name, type, size and [ceil(S / CHUNK_SIZE)]
    chunks, [CHUNK_SIZE] being 16384; then that many Chunk frames, indices
    ascending from 0, every payload of [CHUNK_SIZE] bytes but the last,
    which has [S - CHUNK_SIZE * (totalChunks - 1)], the lengths summing to
    [S] (the payloads in fact concatenate to the file); then one Complete
    frame.  The chunk count [total] is the ceiling of [S / CHUNK_SIZE]: the
    least [n] with [S <= CHUNK_SIZE * n].  The size is a safe integer, as
    every [File.size] is. *)
Theorem send_frame_sequence {A} (this : FileSender.t A) :
  let f := FileSender.file this in
  let total := ((size f + CHUNK_SIZE - 1) / CHUNK_SIZE)%N in
  (size f < 2 ^ 53)%N ->
  CHUNK_SIZE = 16384%N /\
  (forall n, (size f <= CHUNK_SIZE * n)%N <-> (total <= n)%N) /\
  exists payloads : list ArrayBuffer,
    FileSender.frames (FileSender.send this)
    = Metadata (mkMetadata (file_name f) (file_type f) (size f) total)
      :: map Chunk (in_order payloads) ++ [Complete]
    /\ N.of_nat (length payloads) = total
    /\ (forall i d,
          payloads !! i = Some d ->
          N.of_nat (length d)
          = if (N.of_nat i + 1 =? total)%N
            then (size f - CHUNK_SIZE * (total - 1))%N
            else CHUNK_SIZE)
    /\ N.of_nat (sum_list (length <$> payloads)) = size f
    /\ concat payloads = file_bytes f.
Proof.
  intros f total Hs. split; [reflexivity |]. split.
  { intros n.
    destruct (SenderFacts.ceil_div_bounds (size f) CHUNK_SIZE)
      as (B1 & B2 & B3); [discriminate |].
    fold total in B1, B2, B3. set (c := CHUNK_SIZE) in *.
    assert (Hc : (0 < c)%N) by reflexivity.
    destruct (N.eq_dec (size f) 0%N) as [Z | NZ].
    - rewrite (B3 Z), Z. split; intros _; lia.
    - specialize (B2 NZ). split; intros H; nia. }
  exists (map (payload f) (indices total)).
  assert (Ec : chunk_count f = total) by (apply SenderFacts.chunk_count_eq, Hs).
  assert (Ei : length (indices total) = N.to_nat total).
  { unfold indices. rewrite length_map, length_seq. reflexivity. }
  assert (Cp : concat (map (payload f) (indices total)) = file_bytes f)
    by apply (SenderFacts.concat_payloads f).
  split; [| split; [| split; [| split]]].
  - rewrite SenderFacts.frames_send. fold f. rewrite Ec.
    rewrite <- SenderFacts.in_order_payloads, map_map. reflexivity.
  - rewrite length_map, Ei. lia.
  - intros i d Hd. rewrite list_lookup_fmap in Hd.
    destruct (indices total !! i) as [j |] eqn:Hj; [| discriminate].
    injection Hd as <-.
    unfold indices in Hj. rewrite list_lookup_fmap in Hj.
    destruct (seq 0 (N.to_nat total) !! i) as [k |] eqn:Hk; [| discriminate].
    injection Hj as <-. apply lookup_seq in Hk as [-> Hi]. cbn.
    apply SenderFacts.length_payload. fold total. lia.
  - rewrite <- length_concat, Cp. reflexivity.
  - exact Cp.
Qed.

Lemma send_frame_sequence_witness :
  (size hello < 2 ^ 53)%N /\
  exists payloads : list ArrayBuffer,
    FileSender.frames (FileSender.send hello_sender)
    = Metadata hello_metadata :: map Chunk (in_order payloads) ++ [Complete]
    /\ concat payloads = file_bytes hello.
Proof.
  split; [reflexivity |].
  destruct (send_frame_sequence hello_sender)
    as (_ & _ & payloads & F & _ & _ & _ & C); [reflexivity |].
  exists payloads. split; [exact F | exact C].
Defined.

(** ** The empty file *)

(** C6: for a file of size 0, [send] computes [totalChunks = 0] and does
    nothing but hand over one Metadata frame and then one Complete frame;
    a receiver given these two frames calls [onComplete] with an empty
    payload. *)
Theorem send_empty_file {A} (this : FileSender.t A) (receiver : FileReceiver.t) :
  let f := FileSender.file this in
  size f = 0%N ->
  chunk_count f = 0%N
  /\ FileSender.send this
     = [FileSender.ConnectionSend
          (Metadata (mkMetadata (file_name f) (file_type f) 0 0));
        FileSender.ConnectionSend Complete]
  /\ exists blob,
       FileReceiver.deliver FileReceiver.recorder receiver
         (map FileReceiver.Message (FileSender.frames (FileSender.send this)))
       = (FileReceiver.init,
          [FileReceiver.Started;
           FileReceiver.Completed blob (file_name f) (file_type f)])
       /\ blob_bytes blob = [].
Proof.
  intros f H. subst f. destruct this as [[name type bytes] cb].
  cbn [FileSender.file file_name file_type] in *.
  destruct bytes as [| b bytes]; [| discriminate H].
  split; [reflexivity |]. split; [reflexivity |].
  exists (mkBlob [] (normalize_type type)).
  split; [| reflexivity].
  change (map FileReceiver.Message
            (FileSender.frames
               (FileSender.send (FileSender.mk (mkFile name type []) cb))))
    with (transfer (mkMetadata name type 0 0) []).
  rewrite (ReceiverFacts.deliver_transfer _ _ _ _ (Array.mk 0 ∅)) by reflexivity.
  reflexivity.
Qed.

Lemma send_empty_file_witness :
  size empty_file = 0%N
  /\ FileSender.send (FileSender.mk empty_file (Some (fun p : number => p)))
     = [FileSender.ConnectionSend (Metadata (mkMetadata "empty.bin" "" 0 0));
        FileSender.ConnectionSend Complete].
Proof.
  split; [reflexivity |].
  apply (send_empty_file (FileSender.mk empty_file (Some (fun p : number => p)))
                         FileReceiver.init).
  reflexivity.
Defined.

(** ** Frames out of place *)

(** C7: a Chunk frame that arrives while the receiver is idle is ignored:
    whatever the callbacks, none is called, nothing is thrown and the
    fields are as before. *)
Theorem chunk_while_idle {A} (cb : FileReceiver.callbacks A)
    (this : FileReceiver.t) (c : FileChunk) :
  FileReceiver.metadata this = None ->
  FileReceiver.listener cb (FileReceiver.Message (Chunk c)) this
  = (this, [], FileReceiver.Return tt).
Proof. apply ReceiverFacts.listener_chunk_idle. Qed.

Lemma chunk_while_idle_witness :
  FileReceiver.listener FileReceiver.recorder
    (FileReceiver.Message (Chunk (mkChunk 0 [x68]))) FileReceiver.init
  = (FileReceiver.init, [], FileReceiver.Return tt).
Proof. apply chunk_while_idle. reflexivity. Defined.

(** C10: a Complete frame that arrives while the receiver is idle is
    ignored as well: no callback is called, [onComplete] included, and the
    fields are as before. *)
Theorem complete_while_idle {A} (cb : FileReceiver.callbacks A)
    (this : FileReceiver.t) :
  FileReceiver.metadata this = None ->
  FileReceiver.listener cb (FileReceiver.Message Complete) this
  = (this, [], FileReceiver.Return tt).
Proof. apply ReceiverFacts.listener_complete_idle. Qed.

Lemma complete_while_idle_witness :
  FileReceiver.listener FileReceiver.recorder
    (FileReceiver.Message Complete) FileReceiver.init
  = (FileReceiver.init, [], FileReceiver.Return tt).
Proof. apply complete_while_idle. reflexivity. Defined.

(** C9: a Chunk frame whose index is not below the declared
    [totalChunks], received while collecting, is handled like any other:
    its payload is stored at that index, the counter goes up by one, the
    only callback called is [onProgress], never [onError].  In
    consequence a reassembled payload can be longer than the declared
    [fileSize]: one chunk in range and one beyond it give two bytes for a
    declared size of one. *)
Theorem chunk_beyond_total (this : FileReceiver.t) (md : FileMetadata)
    (c : FileChunk) :
  FileReceiver.metadata this = Some md ->
  (totalChunks md <= index c)%N ->
  let after := (FileReceiver.on_data FileReceiver.recorder this
                  (FileReceiver.Message (Chunk c))).1 in
  let events := (FileReceiver.on_data FileReceiver.recorder this
                   (FileReceiver.Message (Chunk c))).2 in
  (Array.get (FileReceiver.chunks after) (index c) = Some (data c)
   /\ FileReceiver.receivedChunks after
      = (FileReceiver.receivedChunks this + 1)%N
   /\ FileReceiver.metadata after = Some md
   /\ events
      = [FileReceiver.Progress
           (Number.percent (FileReceiver.receivedChunks this + 1)
                           (totalChunks md))])
  /\ exists (m : FileMetadata) (c0 c1 : FileChunk) (blob : Blob),
       (index c0 < totalChunks m <= index c1)%N
       /\ last (FileReceiver.deliver FileReceiver.recorder FileReceiver.init
                  (transfer m [c0; c1])).2
          = Some (FileReceiver.Completed blob (fileName m) (fileType m))
       /\ (fileSize m < N.of_nat (length (blob_bytes blob)))%N.
Proof.
  intros Hmd _ after events. split.
  - subst after events.
    rewrite (ReceiverFacts.on_data_listener _ _ _ _ _ _
               (ReceiverFacts.listener_chunk _ this md c Hmd)).
    cbn [fst snd FileReceiver.chunks FileReceiver.receivedChunks
         FileReceiver.metadata].
    repeat split. apply lookup_insert_eq.
  - exists one_byte, (mkChunk 0 [x68]), (mkChunk 1 [x69]),
      (mkBlob [x68; x69] "").
    split; [cbn; lia |]. split; [reflexivity |]. cbn. lia.
Qed.

Lemma chunk_beyond_total_witness :
  (FileReceiver.on_data FileReceiver.recorder collecting
     (FileReceiver.Message (Chunk (mkChunk 1 [x69])))).2
  = [FileReceiver.Progress (Number.percent 1 1)].
Proof.
  apply (chunk_beyond_total collecting hello_metadata (mkChunk 1 [x69]));
    [reflexivity | cbn; lia].
Defined.

(** ** Progress *)

(** C5, the range: two frames for the one chunk of a transfer bring the
    second percentage to 200. *)
Lemma percent_above_100 :
  let events :=
    (FileReceiver.deliver FileReceiver.recorder FileReceiver.init
       [FileReceiver.Message (Metadata one_byte);
        FileReceiver.Message (Chunk (mkChunk 0 [x68]));
        FileReceiver.Message (Chunk (mkChunk 0 [x68]))]).2 in
  ~ (forall p,
       FileReceiver.Progress p ∈ events ->
       Number.le (Number.Fin 0) p /\ Number.le p (Number.Fin 100)).
Proof.
  intros events H.
  destruct (H (Number.Fin 200)) as [_ H200].
  - right. right. left.
  - cbn in H200. unfold Qle in H200. cbn in H200. lia.
Qed.

(** C5, as the code has it: each Chunk frame received while collecting
    makes the receiver call [onProgress] once, and nothing else, with
    [Math.round((receivedChunks / totalChunks) * 100)] for the counter
    just incremented; the value lies between 0 and 100 as long as the
    counter does not exceed [totalChunks]. *)
Theorem percent_per_chunk (this : FileReceiver.t) (md : FileMetadata)
    (c : FileChunk) :
  FileReceiver.metadata this = Some md ->
  let received := (FileReceiver.receivedChunks this + 1)%N in
  (FileReceiver.on_data FileReceiver.recorder this
     (FileReceiver.Message (Chunk c))).2
  = [FileReceiver.Progress (Number.percent received (totalChunks md))]
  /\ ((received <= totalChunks md)%N ->
      Number.le (Number.Fin 0) (Number.percent received (totalChunks md))
      /\ Number.le (Number.percent received (totalChunks md)) (Number.Fin 100)).
Proof.
  intros Hmd received. split.
  - rewrite (ReceiverFacts.on_data_listener _ _ _ _ _ _
               (ReceiverFacts.listener_chunk _ this md c Hmd)).
    reflexivity.
  - intros Hle. assert (Ht : totalChunks md <> 0%N) by (subst received; lia).
    split.
    + apply NumberFacts.percent_nonneg, Ht.
    + apply NumberFacts.percent_le_100; assumption.
Qed.

Lemma percent_per_chunk_witness :
  (FileReceiver.on_data FileReceiver.recorder collecting
     (FileReceiver.Message (Chunk (mkChunk 0 [x68])))).2
  = [FileReceiver.Progress (Number.percent 1 1)].
Proof.
  apply (percent_per_chunk collecting hello_metadata (mkChunk 0 [x68])).
  reflexivity.
Defined.




(** ** Reassembly *)

(** C3: the chunk frames of a transfer delivered in any order, followed
    by Complete, leave the receiver in the same state and make it call the
    same callbacks with the same values, the reassembled payload included,
    as the same frames delivered in ascending index order. *)
Theorem reordered_delivery (this : FileReceiver.t) (m : FileMetadata)
    (payloads : list ArrayBuffer) (cs : list FileChunk) :
  cs ≡ₚ in_order payloads ->
  FileReceiver.deliver FileReceiver.recorder this (transfer m cs)
  = FileReceiver.deliver FileReceiver.recorder this
      (transfer m (in_order payloads)).
Proof.
  intros P.
  assert (S : forall a, store a (in_order payloads) = store a cs).
  { apply ArrayFacts.store_Permutation;
      [symmetry; exact P | apply ArrayFacts.NoDup_in_order]. }
  assert (L : length cs = length (in_order payloads))
    by (apply Permutation_length, P).
  destruct (Array.new (totalChunks m)) as [a |] eqn:E.
  - rewrite !(ReceiverFacts.deliver_transfer _ _ _ _ a E), S, L. reflexivity.
  - rewrite !(ReceiverFacts.deliver_transfer_rejected _ _ _ _ E), S, L.
    reflexivity.
Qed.

Lemma reordered_delivery_witness :
  FileReceiver.deliver FileReceiver.recorder FileReceiver.init
    (transfer (mkMetadata "ab.bin" "" 2 2) [mkChunk 1 [x62]; mkChunk 0 [x61]])
  = FileReceiver.deliver FileReceiver.recorder FileReceiver.init
      (transfer (mkMetadata "ab.bin" "" 2 2) (in_order [[x61]; [x62]])).
Proof.
  apply reordered_delivery. apply perm_swap.
Defined.

(** C2, the bound: [new Array(totalChunks)] raises a [RangeError] for
    [2^32] chunks.  The chunk frames then extend the array the receiver
    already had, whose last index is [2^32 - 2]: the payload handed to
    [onComplete] lacks the last chunk. *)
Lemma reassembly_beyond_array_length :
  totalChunks big_metadata = N.of_nat (length big_payloads)
  /\ fileSize big_metadata = N.of_nat (length (concat big_payloads))
  /\ exists blob,
       last (FileReceiver.deliver FileReceiver.recorder FileReceiver.init
               (transfer big_metadata (in_order big_payloads))).2
       = Some (FileReceiver.Completed blob "big.bin" "")
       /\ blob_bytes blob <> concat big_payloads
       /\ N.of_nat (length (blob_bytes blob)) <> fileSize big_metadata.
Proof.
  set (ds := repeat [x00] (N.to_nat Array.max_length)).
  assert (Lds : length ds = N.to_nat Array.max_length) by apply repeat_length.
  assert (Cds : forall n, length (concat (repeat [x00] n)) = n).
  { induction n as [| n IH]; [reflexivity |].
    cbn [repeat concat app length]. rewrite IH. reflexivity. }
  assert (Hbig : big_payloads = ds ++ [[x00]]).
  { unfold big_payloads, ds.
    replace (N.to_nat too_many) with (N.to_nat Array.max_length + 1)%nat
      by (unfold too_many, Array.max_length; lia).
    apply repeat_app. }
  split; [| split].
  - unfold big_payloads. rewrite repeat_length, N2Nat.id. reflexivity.
  - unfold big_payloads. rewrite Cds, N2Nat.id. reflexivity.
  - exists (new_Blob (store Array.empty (in_order big_payloads)) "").
    assert (B : blob_bytes (new_Blob (store Array.empty (in_order big_payloads)) "")
                = concat ds).
    { unfold new_Blob. cbn [blob_bytes]. rewrite Hbig.
      rewrite ArrayFacts.to_list_store_overflow by (rewrite Lds; apply N2Nat.id).
      apply ArrayFacts.flat_map_part_bytes. }
    split; [| split].
    + rewrite ReceiverFacts.deliver_transfer_rejected by reflexivity.
      cbn [snd]. rewrite app_assoc. apply last_snoc.
    + rewrite B, Hbig, concat_app. intros E.
      apply (f_equal length) in E. rewrite length_app in E.
      cbn [concat app length] in E. lia.
    + rewrite B. unfold ds. rewrite Cds, N2Nat.id. discriminate.
Qed.

(** C2, as the code has it: a Metadata frame that announces at most
    [2^32 - 1] chunks, then its chunk frames in index order, then
    Complete, make the receiver call [onStart], [onProgress] once per
    chunk, and [onComplete] once, with the concatenation of the payloads
    and the recorded name and type; afterwards it is idle, with no
    metadata, no chunks and a counter of zero.  The payload has the
    declared [fileSize] when the payload lengths sum to it, and when the
    frames are those [send] produced for a file, it is that file's
    content. *)
Theorem reassembly (this : FileReceiver.t) (m : FileMetadata)
    (payloads : list ArrayBuffer) :
  totalChunks m = N.of_nat (length payloads) ->
  (totalChunks m <= Array.max_length)%N ->
  FileReceiver.deliver FileReceiver.recorder this
    (transfer m (in_order payloads))
  = (FileReceiver.init,
     FileReceiver.Started
     :: map FileReceiver.Progress
          (percents 0 (totalChunks m) (length payloads))
     ++ [FileReceiver.Completed
           (mkBlob (concat payloads) (normalize_type (fileType m)))
           (fileName m) (fileType m)])
  /\ (fileSize m = N.of_nat (sum_list (length <$> payloads)) ->
      N.of_nat (length (concat payloads)) = fileSize m)
  /\ (forall (A : Type) (sender : FileSender.t A),
        (size (FileSender.file sender) < 2 ^ 53)%N ->
        FileSender.frames (FileSender.send sender)
        = Metadata m :: map Chunk (in_order payloads) ++ [Complete] ->
        concat payloads = file_bytes (FileSender.file sender)
        /\ N.of_nat (length (concat payloads)) = fileSize m).
Proof.
  intros Hn Hmax. split; [| split].
  - apply ReceiverFacts.deliver_in_order; assumption.
  - intros ->. rewrite length_concat. reflexivity.
  - intros A sender Hs F.
    rewrite SenderFacts.frames_send in F.
    injection F as Hm Hc. apply app_inv_tail in Hc.
    rewrite <- (map_map (fun i => mkChunk i (payload (FileSender.file sender) i))
                        Chunk) in Hc.
    assert (I : Inj eq eq Chunk) by (intros x y [=]; assumption).
    apply (inj (fmap Chunk)) in Hc.
    rewrite SenderFacts.in_order_payloads in Hc.
    apply (f_equal (fmap data)) in Hc.
    rewrite !ArrayFacts.data_in_order in Hc. subst payloads.
    rewrite (SenderFacts.chunk_count_eq _ Hs).
    rewrite (SenderFacts.concat_payloads (FileSender.file sender)).
    split; [reflexivity |]. subst m. reflexivity.
Qed.

Lemma reassembly_witness :
  FileReceiver.deliver FileReceiver.recorder collecting
    (transfer one_byte (in_order [[x68]]))
  = (FileReceiver.init,
     [FileReceiver.Started;
      FileReceiver.Progress (Number.percent 1 1);
      FileReceiver.Completed (mkBlob [x68] "") "a.bin" ""]).
Proof.
  apply (reassembly collecting one_byte [[x68]]);
    [reflexivity | unfold Array.max_length; simpl; lia].
Defined.

(** ** Exceptions *)

(** C8, the state: a Metadata frame whose [totalChunks] is no array
    length raises a [RangeError], but only after [this.metadata] was
    assigned; the receiver is left with the new metadata next to the
    chunks and the counter of the transfer it was collecting. *)
Lemma rejected_metadata_is_kept :
  let received := FileReceiver.Message (Metadata big_metadata) in
  raises FileReceiver.recorder collecting received
    (FileReceiver.ThrownError FileReceiver.RangeError)
  /\ (FileReceiver.on_data FileReceiver.recorder collecting received).1
     <> collecting.
Proof.
  split; [reflexivity |]. intros E.
  apply (f_equal FileReceiver.metadata) in E. discriminate E.
Qed.

(** C8, as the code has it: when the handling of a frame raises an
    exception, [onError] is called once with it and no other callback is;
    nothing is reset: the chunks and the counter are as before, and so is
    the metadata unless the frame is a Metadata frame rejected for its
    [totalChunks], which is then recorded.  The listener stays in place:
    the frames that follow are handled from the fields so left, and a
    well-formed transfer that follows is reassembled. *)
Theorem exception_is_reported (this : FileReceiver.t)
    (received : FileReceiver.unknown) (e : FileReceiver.thrown) :
  raises FileReceiver.recorder this received e ->
  let after :=
    (FileReceiver.on_data FileReceiver.recorder this received).1 in
  (FileReceiver.on_data FileReceiver.recorder this received).2
  = [FileReceiver.Errored (FileReceiver.as_Error e)]
  /\ FileReceiver.chunks after = FileReceiver.chunks this
  /\ FileReceiver.receivedChunks after = FileReceiver.receivedChunks this
  /\ (after = this
      \/ exists m,
           received = FileReceiver.Message (Metadata m)
           /\ Array.new (totalChunks m) = None
           /\ FileReceiver.metadata after = Some m)
  /\ (forall rest,
        FileReceiver.deliver FileReceiver.recorder this (received :: rest)
        = ((FileReceiver.deliver FileReceiver.recorder after rest).1,
           FileReceiver.Errored (FileReceiver.as_Error e)
           :: (FileReceiver.deliver FileReceiver.recorder after rest).2))
  /\ (forall m payloads,
        totalChunks m = N.of_nat (length payloads) ->
        (totalChunks m <= Array.max_length)%N ->
        FileReceiver.deliver FileReceiver.recorder this
          (received :: transfer m (in_order payloads))
        = (FileReceiver.init,
           FileReceiver.Errored (FileReceiver.as_Error e)
           :: FileReceiver.Started
           :: map FileReceiver.Progress
                (percents 0 (totalChunks m) (length payloads))
           ++ [FileReceiver.Completed
                 (mkBlob (concat payloads) (normalize_type (fileType m)))
                 (fileName m) (fileType m)])).
Proof.
  intros R after.
  assert (Step : FileReceiver.on_data FileReceiver.recorder this received
                 = (after, [FileReceiver.Errored (FileReceiver.as_Error e)])
                 /\ FileReceiver.chunks after = FileReceiver.chunks this
                 /\ FileReceiver.receivedChunks after
                    = FileReceiver.receivedChunks this
                 /\ (after = this
                     \/ exists m,
                          received = FileReceiver.Message (Metadata m)
                          /\ Array.new (totalChunks m) = None
                          /\ FileReceiver.metadata after = Some m)).
  { subst after.
    destruct (ReceiverFacts.raises_inv _ _ _ _ R)
      as [[-> ->] | (m & -> & E & ->)].
    - repeat split. left. reflexivity.
    - rewrite (ReceiverFacts.on_data_listener _ _ _ _ _ _
                 (ReceiverFacts.listener_metadata_rejected _ this m E)).
      repeat split. right. exists m. repeat split. exact E. }
  destruct Step as (S & Hc & Hr & Hm).
  assert (D : forall rest,
            FileReceiver.deliver FileReceiver.recorder this (received :: rest)
            = ((FileReceiver.deliver FileReceiver.recorder after rest).1,
               FileReceiver.Errored (FileReceiver.as_Error e)
               :: (FileReceiver.deliver FileReceiver.recorder after rest).2)).
  { intros rest. rewrite ReceiverFacts.deliver_cons, S. reflexivity. }
  split; [rewrite S; reflexivity |].
  split; [exact Hc |]. split; [exact Hr |]. split; [exact Hm |].
  split; [exact D |].
  intros m payloads Hn Hmax.
  rewrite D, ReceiverFacts.deliver_in_order by assumption. reflexivity.
Qed.

Lemma exception_is_reported_witness :
  raises FileReceiver.recorder collecting FileReceiver.Nullish
    (FileReceiver.ThrownError FileReceiver.TypeError)
  /\ (FileReceiver.on_data FileReceiver.recorder collecting
        FileReceiver.Nullish).2
     = [FileReceiver.Errored FileReceiver.TypeError].
Proof.
  split; [reflexivity |].
  apply (exception_is_reported collecting FileReceiver.Nullish
           (FileReceiver.ThrownError FileReceiver.TypeError)).
  reflexivity.
Defined.

(** * Further properties of the sender and the receiver *)

Module TransferFacts.

Lemma timers_app {A} (es1 es2 : list (FileSender.effect A)) :
  timers (es1 ++ es2) = timers es1 ++ timers es2.
Proof. apply flat_map_app. Qed.

Lemma timers_send_chunk {A} (this : FileSender.t A) n i :
  timers (FileSender.send_chunk this n i)
  = if (i mod 10 =? 0)%N then [1%N] else [].
Proof.
  unfold FileSender.send_chunk, timers.
  destruct (FileSender.onProgress this); destruct (i mod 10 =? 0)%N;
    reflexivity.
Qed.

Lemma ceil_div_10_succ n :
  ((S n + 9) / 10
   = (n + 9) / 10 + (if (N.of_nat n mod 10 =? 0)%N then 1 else 0))%nat.
Proof.
  assert (M : (N.of_nat n mod 10)%N = N.of_nat (n mod 10))
    by (change 10%N with (N.of_nat 10); symmetry; apply Nat2N.inj_mod).
  pose proof (Nat.div_mod_eq n 10) as D0.
  pose proof (Nat.mod_upper_bound n 10 ltac:(discriminate)) as R0.
  pose proof (Nat.div_mod_eq (n + 9) 10) as D1.
  pose proof (Nat.mod_upper_bound (n + 9) 10 ltac:(discriminate)) as R1.
  pose proof (Nat.div_mod_eq (S n + 9) 10) as D2.
  pose proof (Nat.mod_upper_bound (S n + 9) 10 ltac:(discriminate)) as R2.
  destruct (N.of_nat n mod 10 =? 0)%N eqn:E;
    [apply N.eqb_eq in E | apply N.eqb_neq in E]; rewrite M in E;
    set (q0 := (n / 10)%nat) in *; set (r0 := (n mod 10)%nat) in *;
    set (q1 := ((n + 9) / 10)%nat) in *; set (r1 := ((n + 9) mod 10)%nat) in *;
    set (q2 := ((S n + 9) / 10)%nat) in *;
    set (r2 := ((S n + 9) mod 10)%nat) in *;
    clearbody q0 r0 q1 r1 q2 r2; lia.
Qed.

(** The multiples of ten below [n] are [ceil(n / 10)] in number. *)
Lemma timers_chunks {A} (this : FileSender.t A) total n :
  timers (flat_map (FileSender.send_chunk this total)
                   (map N.of_nat (seq 0 n)))
  = repeat 1%N ((n + 9) / 10).
Proof.
  induction n as [| n IH]; [reflexivity |].
  rewrite seq_S, map_app, flat_map_app, timers_app, IH. cbn [map flat_map].
  rewrite app_nil_r, timers_send_chunk, ceil_div_10_succ, repeat_app.
  cbn [Nat.add]. destruct (N.of_nat n mod 10 =? 0)%N; reflexivity.
Qed.

Lemma chunk_count_le_max f :
  (size f <= CHUNK_SIZE * Array.max_length)%N ->
  (size f < 2 ^ 53)%N /\ (chunk_count f <= Array.max_length)%N.
Proof.
  intros H.
  assert (Hs : (size f < 2 ^ 53)%N).
  { eapply N.le_lt_trans; [exact H |]. reflexivity. }
  split; [exact Hs |].
  rewrite (SenderFacts.chunk_count_eq f Hs).
  destruct (SenderFacts.ceil_div_bounds (size f) CHUNK_SIZE)
    as (B1 & B2 & B3); [discriminate |].
  set (total := ((size f + CHUNK_SIZE - 1) / CHUNK_SIZE)%N) in *.
  set (c := CHUNK_SIZE) in *. assert (Hc : (0 < c)%N) by reflexivity.
  destruct (N.eq_dec (size f) 0%N) as [Z | NZ].
  - rewrite (B3 Z). apply N.le_0_l.
  - specialize (B2 NZ). nia.
Qed.

(** The frames of [send], as the receiver's connection delivers them. *)
Lemma received_frames {A} (sender : FileSender.t A) :
  let f := FileSender.file sender in
  map FileReceiver.Message (FileSender.frames (FileSender.send sender))
  = transfer (mkMetadata (file_name f) (file_type f) (size f) (chunk_count f))
             (in_order (map (payload f) (indices (chunk_count f)))).
Proof.
  intros f. rewrite SenderFacts.frames_send. fold f.
  rewrite <- SenderFacts.in_order_payloads. unfold transfer, chunk_frames.
  cbn [map]. rewrite map_app, !map_map. reflexivity.
Qed.

Lemma deliver_send {A} (sender : FileSender.t A) (this : FileReceiver.t) :
  let f := FileSender.file sender in
  (size f <= CHUNK_SIZE * Array.max_length)%N ->
  FileReceiver.deliver FileReceiver.recorder this
    (map FileReceiver.Message (FileSender.frames (FileSender.send sender)))
  = (FileReceiver.init,
     FileReceiver.Started
     :: map FileReceiver.Progress
          (percents 0 (chunk_count f) (N.to_nat (chunk_count f)))
     ++ [FileReceiver.Completed
           (mkBlob (file_bytes f) (normalize_type (file_type f)))
           (file_name f) (file_type f)]).
Proof.
  intros f H. destruct (chunk_count_le_max f H) as [Hs Hmax].
  rewrite received_frames. fold f.
  assert (L : length (map (payload f) (indices (chunk_count f)))
              = N.to_nat (chunk_count f)).
  { unfold indices. rewrite !length_map, length_seq. reflexivity. }
  rewrite ReceiverFacts.deliver_in_order.
  - cbn [totalChunks fileName fileType]. rewrite L.
    rewrite (SenderFacts.chunk_count_eq f Hs).
    rewrite (SenderFacts.concat_payloads f). reflexivity.
  - cbn [totalChunks]. rewrite L, N2Nat.id. reflexivity.
  - exact Hmax.
Qed.

End TransferFacts.

(** X1: what [send] does, timers included: the Metadata frame; then
    for each index in turn the Chunk frame, the progress callback if
    there is one, and, when the index is 0, 10, 20, ..., a timer of
    1 ms that is awaited before the next frame; then the Complete
    frame.  No timer stands anywhere else, so there are as many timers
    as there are started groups of ten chunks. *)
Theorem send_timers {A} (this : FileSender.t A) :
  let f := FileSender.file this in
  let total := chunk_count f in
  FileSender.send this
  = FileSender.ConnectionSend
      (Metadata (mkMetadata (file_name f) (file_type f) (size f) total))
    :: flat_map
         (fun i =>
            FileSender.ConnectionSend (Chunk (mkChunk i (payload f i)))
            :: match FileSender.onProgress this with
               | Some g =>
                   [FileSender.Call (g (Number.percent (i + 1) total))]
               | None => []
               end
            ++ (if (i mod 10 =? 0)%N then [FileSender.SetTimeout 1] else []))
         (indices total)
    ++ [FileSender.ConnectionSend Complete]
  /\ timers (FileSender.send this)
     = repeat 1%N ((N.to_nat total + 9) / 10).
Proof.
  intros f total. split.
  - rewrite SenderFacts.send_eq. reflexivity.
  - rewrite SenderFacts.send_eq, !TransferFacts.timers_app. unfold indices.
    rewrite TransferFacts.timers_chunks. apply app_nil_r.
Qed.

(** X2: every Chunk frame [send] emits has an index below the announced
    [totalChunks] and a payload of at least one and at most [CHUNK_SIZE]
    bytes: no empty chunk goes on the wire. *)
Theorem chunk_frames_bounded {A} (this : FileSender.t A) (c : FileChunk) :
  let f := FileSender.file this in
  (size f < 2 ^ 53)%N ->
  Chunk c ∈ FileSender.frames (FileSender.send this) ->
  (index c < chunk_count f)%N
  /\ (1 <= N.of_nat (length (data c)) <= CHUNK_SIZE)%N.
Proof.
  intros f Hs Hin. rewrite SenderFacts.frames_send in Hin. fold f in Hin.
  apply elem_of_cons in Hin as [Hin | Hin]; [discriminate Hin |].
  apply elem_of_app in Hin as [Hin | Hin].
  - apply list_elem_of_fmap in Hin as (i & E & Hi). injection E as ->.
    unfold indices in Hi. apply list_elem_of_fmap in Hi as (k & -> & Hk).
    apply elem_of_seq in Hk. cbn [index data].
    split; [lia |].
    pose proof (SenderFacts.length_payload f (N.of_nat k)) as L.
    cbn zeta in L. rewrite <- (SenderFacts.chunk_count_eq f Hs) in L.
    rewrite L by lia.
    destruct (SenderFacts.ceil_div_bounds (size f) CHUNK_SIZE)
      as (B1 & B2 & B3); [discriminate |].
    rewrite <- (SenderFacts.chunk_count_eq f Hs) in B1, B2, B3.
    set (total := chunk_count f) in *. set (c := CHUNK_SIZE) in *.
    assert (Hc : (0 < c)%N) by reflexivity.
    assert (NZ : size f <> 0%N) by (intros Z; rewrite (B3 Z) in Hk; lia).
    specialize (B2 NZ).
    destruct (N.of_nat k + 1 =? total)%N; nia.
  - apply list_elem_of_singleton in Hin. discriminate Hin.
Qed.

Lemma chunk_frames_bounded_witness :
  (index (mkChunk 0 (file_bytes hello)) < chunk_count hello)%N
  /\ (1 <= N.of_nat (length (data (mkChunk 0 (file_bytes hello))))
      <= CHUNK_SIZE)%N.
Proof.
  apply (chunk_frames_bounded hello_sender (mkChunk 0 (file_bytes hello))).
  - reflexivity.
  - right. left.
Defined.

(** X3: end to end, for a file of up to [CHUNK_SIZE * (2^32 - 1)] bytes:
    a receiver in any state that is given the frames [send] produced
    calls [onStart], reports the percentages the sender reported, calls
    [onComplete] once with exactly the file's bytes, name and type, and is
    idle again. *)
Theorem send_then_receive {A} (sender : FileSender.t A)
    (this : FileReceiver.t) :
  let f := FileSender.file sender in
  (size f <= CHUNK_SIZE * Array.max_length)%N ->
  FileReceiver.deliver FileReceiver.recorder this
    (map FileReceiver.Message (FileSender.frames (FileSender.send sender)))
  = (FileReceiver.init,
     FileReceiver.Started
     :: map FileReceiver.Progress
          (percents 0 (chunk_count f) (N.to_nat (chunk_count f)))
     ++ [FileReceiver.Completed
           (mkBlob (file_bytes f) (normalize_type (file_type f)))
           (file_name f) (file_type f)]).
Proof. apply TransferFacts.deliver_send. Qed.

Lemma send_then_receive_witness :
  FileReceiver.deliver FileReceiver.recorder collecting
    (map FileReceiver.Message (FileSender.frames (FileSender.send hello_sender)))
  = (FileReceiver.init,
     [FileReceiver.Started;
      FileReceiver.Progress (Number.percent 1 1);
      FileReceiver.Completed (mkBlob (file_bytes hello) "text/plain")
                             "hello.txt" "text/plain"]).
Proof.
  apply (send_then_receive hello_sender collecting).
  apply N.leb_le. reflexivity.
Defined.

Module ListenerFacts.
Import FileReceiver.

(** Splits on the frame received and on what the listener tests, and
    rewrites the step accordingly. *)
Ltac on_data_cases cb this d :=
  let m := fresh "m" in let c := fresh "c" in
  let a := fresh "a" in let md := fresh "md" in
  let E := fresh "E" in
  destruct d as [| [m | c |] |];
  [ rewrite (ReceiverFacts.on_data_listener cb this _ _ _ _
               (ReceiverFacts.listener_nullish cb this))
  | destruct (Array.new (totalChunks m)) as [a |] eqn:E;
    [ rewrite (ReceiverFacts.on_data_listener cb this _ _ _ _
                 (ReceiverFacts.listener_metadata cb this m a E))
    | rewrite (ReceiverFacts.on_data_listener cb this _ _ _ _
                 (ReceiverFacts.listener_metadata_rejected cb this m E)) ]
  | destruct (metadata this) as [md |] eqn:E;
    [ rewrite (ReceiverFacts.on_data_listener cb this _ _ _ _
                 (ReceiverFacts.listener_chunk cb this md c E))
    | rewrite (ReceiverFacts.on_data_listener cb this _ _ _ _
                 (ReceiverFacts.listener_chunk_idle cb this c E)) ]
  | destruct (metadata this) as [md |] eqn:E;
    [ rewrite (ReceiverFacts.on_data_listener cb this _ _ _ _
                 (ReceiverFacts.listener_complete cb this md E))
    | rewrite (ReceiverFacts.on_data_listener cb this _ _ _ _
                 (ReceiverFacts.listener_complete_idle cb this E)) ]
  | rewrite (ReceiverFacts.on_data_listener cb this _ _ _ _
               (ReceiverFacts.listener_unrecognized cb this)) ].

Lemma completions_app evs1 evs2 :
  completions (evs1 ++ evs2) = completions evs1 ++ completions evs2.
Proof. apply flat_map_app. Qed.

Lemma completions_Progress ps : completions (map Progress ps) = [].
Proof. induction ps as [| p ps IH]; [reflexivity | exact IH]. Qed.

Lemma errors_app evs1 evs2 : errors (evs1 ++ evs2) = errors evs1 ++ errors evs2.
Proof. apply flat_map_app. Qed.

(** One frame: the errors reported, and the completions against the
    metadata at hand. *)
Lemma on_data_errors this d :
  errors (on_data recorder this d).2 = expected_errors [d].
Proof.
  unfold expected_errors. cbn [flat_map]. rewrite app_nil_r.
  on_data_cases (recorder) this d; cbn [snd]; try reflexivity.
  - unfold Array.new in E.
    destruct (totalChunks m <=? Array.max_length)%N; [reflexivity | discriminate].
  - unfold Array.new in E.
    destruct (totalChunks m <=? Array.max_length)%N; [discriminate | reflexivity].
Qed.

Lemma on_data_completions this d :
  (length (completions (on_data recorder this d).2)
   + length (option_list (metadata (on_data recorder this d).1))
   <= length (metadata_frames [d]) + length (option_list (metadata this)))%nat.
Proof.
  on_data_cases (recorder) this d;
    cbn [fst snd metadata]; try rewrite E; cbn; lia.
Qed.

Lemma deliver_completions frames : forall this,
  (length (completions (deliver recorder this frames).2)
   + length (option_list (metadata (deliver recorder this frames).1))
   <= length (metadata_frames frames) + length (option_list (metadata this)))%nat.
Proof.
  induction frames as [| d frames IH]; intros this; [cbn; lia |].
  rewrite ReceiverFacts.deliver_cons. cbn [fst snd].
  rewrite completions_app, length_app.
  assert (M : metadata_frames (d :: frames)
              = metadata_frames [d] ++ metadata_frames frames).
  { unfold metadata_frames. cbn [flat_map]. rewrite app_nil_r. reflexivity. }
  rewrite M, length_app.
  pose proof (on_data_completions this d) as S.
  specialize (IH (on_data recorder this d).1). lia.
Qed.

Lemma deliver_errors frames : forall this,
  errors (deliver recorder this frames).2 = expected_errors frames.
Proof.
  induction frames as [| d frames IH]; intros this; [reflexivity |].
  rewrite ReceiverFacts.deliver_cons. cbn [snd].
  rewrite errors_app, IH, on_data_errors. unfold expected_errors.
  cbn [flat_map]. rewrite app_nil_r. reflexivity.
Qed.

(** A receiver without metadata has neither chunks nor count. *)
Lemma on_data_clean {A} (cb : callbacks A) this d :
  (metadata this = None -> this = init) ->
  metadata (on_data cb this d).1 = None -> (on_data cb this d).1 = init.
Proof.
  intros C.
  on_data_cases cb this d; cbn [fst metadata]; try discriminate; auto.
Qed.

Lemma deliver_clean {A} (cb : callbacks A) frames : forall this,
  (metadata this = None -> this = init) ->
  metadata (deliver cb this frames).1 = None ->
  (deliver cb this frames).1 = init.
Proof.
  induction frames as [| d frames IH]; intros this C; [exact C |].
  rewrite ReceiverFacts.deliver_cons. cbn [fst].
  apply IH. apply on_data_clean, C.
Qed.

Lemma set_set a i x y : Array.set (Array.set a i x) i y = Array.set a i y.
Proof.
  unfold Array.set. cbn. f_equal.
  - destruct (i <? Array.max_length)%N; lia.
  - apply insert_insert_eq.
Qed.



End ListenerFacts.

(** X5: whatever a newly constructed receiver is given, whenever it has
    no metadata it has no chunks and a counter of zero: an idle receiver
    holds nothing of an earlier transfer. *)
Theorem idle_receiver_is_empty {A} (cb : FileReceiver.callbacks A)
    (frames : list FileReceiver.unknown) :
  let this := (FileReceiver.deliver cb FileReceiver.init frames).1 in
  FileReceiver.metadata this = None -> this = FileReceiver.init.
Proof. apply ListenerFacts.deliver_clean. reflexivity. Qed.

Lemma idle_receiver_is_empty_witness :
  (FileReceiver.deliver FileReceiver.recorder FileReceiver.init
     (transfer one_byte [mkChunk 0 [x68]])).1
  = FileReceiver.init.
Proof.
  apply (idle_receiver_is_empty FileReceiver.recorder
           (transfer one_byte [mkChunk 0 [x68]])).
  reflexivity.
Defined.

(** X6: a second Chunk frame for an index replaces the payload of the
    first, the array being as if the second alone had been stored, yet
    both are counted and both reported. *)
Theorem repeated_chunk (this : FileReceiver.t) (md : FileMetadata)
    (i : N) (d1 d2 : ArrayBuffer) :
  FileReceiver.metadata this = Some md ->
  FileReceiver.deliver FileReceiver.recorder this
    (chunk_frames [mkChunk i d1; mkChunk i d2])
  = (FileReceiver.mk (Array.set (FileReceiver.chunks this) i d2) (Some md)
                     (FileReceiver.receivedChunks this + 2),
     [FileReceiver.Progress
        (Number.percent (FileReceiver.receivedChunks this + 1) (totalChunks md));
      FileReceiver.Progress
        (Number.percent (FileReceiver.receivedChunks this + 2) (totalChunks md))]).
Proof.
  intros H. rewrite (ReceiverFacts.deliver_chunks _ _ this md H).
  rewrite ReceiverFacts.progress_calls_recorder.
  cbn [store foldl index data length]. rewrite ListenerFacts.set_set.
  unfold percents. cbn [seq map].
  repeat f_equal; lia.
Qed.

Lemma repeated_chunk_witness :
  FileReceiver.chunks
    (FileReceiver.deliver FileReceiver.recorder collecting
       (chunk_frames [mkChunk 0 [x68]; mkChunk 0 [x69]])).1
  = Array.set (Array.mk 1 ∅) 0 [x69].
Proof.
  rewrite (repeated_chunk collecting hello_metadata 0 [x68] [x69]);
    reflexivity.
Defined.



(** X8: a Metadata frame that is accepted discards whatever the receiver
    held: the transfer it opens is handled the same from any state,
    whether idle or in the middle of another transfer. *)
Theorem metadata_restarts {A} (cb : FileReceiver.callbacks A)
    (this this' : FileReceiver.t) (m : FileMetadata) (cs : list FileChunk) :
  (totalChunks m <= Array.max_length)%N ->
  FileReceiver.deliver cb this (transfer m cs)
  = FileReceiver.deliver cb this' (transfer m cs).
Proof.
  intros H.
  assert (E : Array.new (totalChunks m) = Some (Array.mk (totalChunks m) ∅)).
  { unfold Array.new. apply N.leb_le in H. rewrite H. reflexivity. }
  rewrite !(ReceiverFacts.deliver_transfer cb _ m cs _ E). reflexivity.
Qed.

Lemma metadata_restarts_witness :
  FileReceiver.deliver FileReceiver.recorder collecting
    (transfer one_byte [mkChunk 0 [x68]])
  = FileReceiver.deliver FileReceiver.recorder FileReceiver.init
      (transfer one_byte [mkChunk 0 [x68]]).
Proof.
  apply metadata_restarts. unfold Array.max_length. simpl. lia.
Defined.

(** X9: [onComplete] is never called more often than Metadata frames
    were received: a Complete frame that no Metadata frame precedes, or a
    second Complete frame for the same Metadata frame, completes
    nothing. *)
Theorem completions_bounded (frames : list FileReceiver.unknown) :
  (length (completions
             (FileReceiver.deliver FileReceiver.recorder FileReceiver.init
                frames).2)
   <= length (metadata_frames frames))%nat.
Proof.
  pose proof (ListenerFacts.deliver_completions frames FileReceiver.init) as H.
  replace (length (option_list (FileReceiver.metadata FileReceiver.init)))
    with 0%nat in H by reflexivity.
  lia.
Qed.

(** X10: among frames whose fields have the types the protocol declares,
    [totalChunks] and [index] being unsigned integers as in every frame
    [send] produces, and with callbacks that return: the errors the
    receiver reports are exactly one [TypeError] for each [null] or
    [undefined] delivered and one [RangeError] for each Metadata frame
    whose [totalChunks] exceeds [2^32 - 1], in the order of arrival and
    whatever its state.  Frames out of place, repeated or missing chunks
    are never reported. *)
Theorem errors_reported (this : FileReceiver.t)
    (frames : list FileReceiver.unknown) :
  errors (FileReceiver.deliver FileReceiver.recorder this frames).2
  = expected_errors frames.
Proof. apply ListenerFacts.deliver_errors. Qed.

(** * Sending and receiving in the component *)

Module AppFacts.
Import App.

Lemma wire_app es1 es2 : wire (es1 ++ es2) = wire es1 ++ wire es2.
Proof. apply flat_map_app. Qed.


Lemma wire_Sender es : wire (map Sender es) = FileSender.frames es.
Proof.
  unfold wire, FileSender.frames.
  induction es as [| e es IH]; [reflexivity |].
  destruct e; cbn [map flat_map app]; rewrite IH; reflexivity.
Qed.


(** A sender is fulfilled after all it does, or rejected after a strict
    prefix of it. *)
Lemma await_send_cases (s : FileSender.t action) failure :
  await_send s failure = (FileSender.send s, true)
  \/ exists k, (k < length (FileSender.send s))%nat
               /\ await_send s failure = (take k (FileSender.send s), false).
Proof.
  unfold await_send. cbv zeta. destruct failure as [k |]; [| left; reflexivity].
  destruct (Nat.ltb_spec k (length (FileSender.send s))) as [Lt | Ge].
  - right. exists k. split; [exact Lt | reflexivity].
  - left. reflexivity.
Qed.

Lemma wire_send_file soundEnabled files_length i f failure :
  wire (send_file soundEnabled files_length i f failure)
  = FileSender.frames (await_send (sender (files_length + i) f) failure).1.
Proof.
  unfold send_file. cbv zeta.
  destruct (await_send (sender (files_length + i) f) failure)
    as [effects fulfilled].
  cbn [fst]. rewrite !wire_app, wire_Sender.
  destruct fulfilled, soundEnabled; cbn [wire flat_map app];
    rewrite app_nil_r; reflexivity.
Qed.

Lemma wire_files {X} (g : nat -> X -> list effect)
    (h : nat -> X -> list FileMessage) (l : list X) :
  (forall i x, wire (g i x) = h i x) ->
  wire (concat (imap g l)) = concat (imap h l).
Proof.
  revert g h. induction l as [| x l IH]; intros g h H; [reflexivity |].
  rewrite !imap_cons. cbn [concat]. rewrite wire_app, H.
  f_equal. apply IH. intros i y. apply H.
Qed.

Lemma wire_sendFiles {C} (c : C) files_length soundEnabled failures fileList :
  wire (sendFiles (Some c) files_length soundEnabled failures fileList)
  = concat
      (imap (fun i f =>
               FileSender.frames
                 (await_send (sender (files_length + i) f) (failures i)).1)
            fileList).
Proof.
  unfold sendFiles. rewrite wire_app. cbn [wire flat_map app].
  apply wire_files. intros i f. apply wire_send_file.
Qed.

(** The frames of a prefix are a prefix of the frames. *)
Lemma frames_take {A} k (l : list (FileSender.effect A)) :
  FileSender.frames l
  = FileSender.frames (take k l) ++ FileSender.frames (drop k l).
Proof. rewrite <- SenderFacts.frames_app, take_drop. reflexivity. Qed.



(** [send] puts the Complete frame last: a sender that is rejected has
    not sent it. *)
Lemma frames_loop_no_complete {A} (this : FileSender.t A) n idx :
  Forall (fun m => m <> Complete)
         (FileSender.frames (flat_map (FileSender.send_chunk this n) idx)).
Proof.
  induction idx as [| i idx IH]; [constructor |].
  cbn [flat_map].
  rewrite SenderFacts.frames_app, SenderFacts.frames_send_chunk.
  constructor; [discriminate | exact IH].
Qed.

Lemma frames_prefix_no_complete {A} (this : FileSender.t A) k :
  (k < length (FileSender.send this))%nat ->
  Forall (fun m => m <> Complete)
         (FileSender.frames (take k (FileSender.send this))).
Proof.
  rewrite SenderFacts.send_eq, app_assoc.
  set (l1 := [FileSender.ConnectionSend _] ++ flat_map _ _).
  rewrite length_app. cbn [length]. intros H.
  rewrite take_app_le by lia.
  assert (F : Forall (fun m => m <> Complete) (FileSender.frames l1)).
  { unfold l1. rewrite SenderFacts.frames_app. apply Forall_app. split.
    - repeat constructor. discriminate.
    - apply frames_loop_no_complete. }
  rewrite (frames_take k l1) in F. apply Forall_app in F as [F _]. exact F.
Qed.

(** Without a Complete frame nothing is completed. *)
Lemma on_data_not_complete this m :
  m <> Complete ->
  completions
    (FileReceiver.on_data FileReceiver.recorder this (FileReceiver.Message m)).2
  = [].
Proof.
  intros NC. destruct m as [md | c |]; [| | contradiction].
  - destruct (Array.new (totalChunks md)) as [a |] eqn:E.
    + rewrite (ReceiverFacts.on_data_listener _ this _ _ _ _
                 (ReceiverFacts.listener_metadata _ this md a E)).
      reflexivity.
    + rewrite (ReceiverFacts.on_data_listener _ this _ _ _ _
                 (ReceiverFacts.listener_metadata_rejected _ this md E)).
      reflexivity.
  - destruct (FileReceiver.metadata this) as [md |] eqn:E.
    + rewrite (ReceiverFacts.on_data_listener _ this _ _ _ _
                 (ReceiverFacts.listener_chunk _ this md c E)).
      reflexivity.
    + rewrite (ReceiverFacts.on_data_listener _ this _ _ _ _
                 (ReceiverFacts.listener_chunk_idle _ this c E)).
      reflexivity.
Qed.

Lemma deliver_no_complete l : forall this,
  Forall (fun m => m <> Complete) l ->
  completions
    (FileReceiver.deliver FileReceiver.recorder this
       (map FileReceiver.Message l)).2
  = [].
Proof.
  induction l as [| m l IH]; intros this H; [reflexivity |].
  apply Forall_cons in H as [Hm H].
  cbn [map]. rewrite ReceiverFacts.deliver_cons. cbn [snd].
  rewrite ListenerFacts.completions_app, (on_data_not_complete this m Hm).
  apply IH, H.
Qed.

(** The frames of [send], and so those of a prefix, raise nothing in
    the receiver. *)
Lemma expected_errors_send {A} (this : FileSender.t A) :
  (size (FileSender.file this) <= CHUNK_SIZE * Array.max_length)%N ->
  expected_errors
    (map FileReceiver.Message (FileSender.frames (FileSender.send this)))
  = [].
Proof.
  intros Hf. rewrite TransferFacts.received_frames.
  unfold transfer, expected_errors. cbn [flat_map totalChunks].
  destruct (TransferFacts.chunk_count_le_max _ Hf) as [_ Hmax].
  apply N.leb_le in Hmax. rewrite Hmax. cbn [app].
  rewrite flat_map_app. cbn [flat_map app]. rewrite app_nil_r.
  unfold chunk_frames.
  induction (in_order _) as [| c cs IHc]; [reflexivity | exact IHc].
Qed.

Lemma expected_errors_prefix {A} (this : FileSender.t A) k :
  (size (FileSender.file this) <= CHUNK_SIZE * Array.max_length)%N ->
  expected_errors
    (map FileReceiver.Message
       (FileSender.frames (take k (FileSender.send this))))
  = [].
Proof.
  intros Hf. pose proof (expected_errors_send this Hf) as E.
  rewrite (frames_take k), map_app in E. unfold expected_errors in *.
  rewrite flat_map_app in E. apply app_eq_nil in E as [E _]. exact E.
Qed.

(** The frames of several files in a row, delivered to a receiver. *)
Lemma deliver_sent fileList : forall (X : nat -> nat) (F : nat -> option nat)
    this,
  Forall (fun f => (size f <= CHUNK_SIZE * Array.max_length)%N) fileList ->
  completions
    (FileReceiver.deliver FileReceiver.recorder this
       (map FileReceiver.Message
          (concat
             (imap (fun i f =>
                      FileSender.frames (await_send (sender (X i) f) (F i)).1)
                   fileList)))).2
  = concat (imap (fun i f => arrived (X i) f (F i)) fileList).
Proof.
  induction fileList as [| f fileList IH]; intros X' F' this H;
    [reflexivity |].
  apply Forall_cons in H as [Hf H].
  rewrite !imap_cons. cbn [concat].
  rewrite map_app, ReceiverFacts.deliver_app. cbn [snd].
  rewrite ListenerFacts.completions_app.
  unfold compose.
  rewrite (IH (fun i => X' (S i)) (fun i => F' (S i)) _ H).
  f_equal. unfold arrived.
  destruct (await_send_cases (sender (X' 0%nat) f) (F' 0%nat))
    as [E | (k & Hk & E)]; rewrite E; cbn [fst snd].
  - rewrite (TransferFacts.deliver_send (sender (X' 0%nat) f) this Hf).
    cbn [snd FileSender.file sender].
    change (FileReceiver.Started :: ?l) with ([FileReceiver.Started] ++ l).
    rewrite !ListenerFacts.completions_app, ListenerFacts.completions_Progress.
    reflexivity.
  - apply deliver_no_complete, frames_prefix_no_complete, Hk.
Qed.

Lemma errors_sent fileList : forall (X : nat -> nat) (F : nat -> option nat),
  Forall (fun f => (size f <= CHUNK_SIZE * Array.max_length)%N) fileList ->
  expected_errors
    (map FileReceiver.Message
       (concat
          (imap (fun i f =>
                   FileSender.frames (await_send (sender (X i) f) (F i)).1)
                fileList)))
  = [].
Proof.
  induction fileList as [| f fileList IH]; intros X' F' H; [reflexivity |].
  apply Forall_cons in H as [Hf H].
  rewrite !imap_cons. cbn [concat]. rewrite map_app.
  unfold expected_errors in *. rewrite flat_map_app. unfold compose.
  rewrite (IH (fun i => X' (S i)) (fun i => F' (S i)) H), app_nil_r.
  destruct (await_send_cases (sender (X' 0%nat) f) (F' 0%nat))
    as [E | (k & Hk & E)]; rewrite E; cbn [fst].
  - apply (expected_errors_send (sender (X' 0%nat) f)), Hf.
  - apply (expected_errors_prefix (sender (X' 0%nat) f)), Hf.
Qed.

Lemma arrived_all (X : nat -> nat) (F : nat -> option nat) fileList :
  (forall i, F i = None) ->
  concat (imap (fun i f => arrived (X i) f (F i)) fileList)
  = map (fun f => (file_bytes f, file_name f, file_type f)) fileList.
Proof.
  intros N. revert X F N.
  induction fileList as [| f fileList IH]; intros X F N; [reflexivity |].
  rewrite imap_cons. cbn [concat map]. unfold compose.
  rewrite (IH (fun i => X (S i)) (fun i => F (S i))) by (intros i; apply N).
  unfold arrived, await_send. rewrite N. reflexivity.
Qed.

End AppFacts.

(** X11: the files [sendFiles] is given go over the connection one after
    the other, each as [send] frames it, up to where its sender is
    rejected if it is.  A receiver given these frames calls
    [onComplete] once for each file whose sender was fulfilled, in the
    order sent, with the file's bytes, name and type, and reports no
    error: what a rejected sender had sent is dropped when the next
    file begins.  When no sender is rejected, that is once per file.
    Each file has at most [CHUNK_SIZE * (2^32 - 1)] bytes. *)
Theorem sent_files_are_received {C} (connection : C) (files_length : nat)
    (soundEnabled : bool) (failures : nat -> option nat)
    (fileList : list File) (this : FileReceiver.t) :
  Forall (fun f => (size f <= CHUNK_SIZE * Array.max_length)%N) fileList ->
  let events :=
    (FileReceiver.deliver FileReceiver.recorder this
       (map FileReceiver.Message
          (App.wire
             (App.sendFiles (Some connection) files_length soundEnabled
                            failures fileList)))).2 in
  completions events
  = concat
      (imap (fun i f =>
               if (App.await_send (App.sender (files_length + i) f)
                                  (failures i)).2
               then [(file_bytes f, file_name f, file_type f)]
               else [])
            fileList)
  /\ errors events = []
  /\ ((forall i, failures i = None) ->
      completions events
      = map (fun f => (file_bytes f, file_name f, file_type f)) fileList).
Proof.
  intros H events. subst events. rewrite AppFacts.wire_sendFiles.
  pose proof (AppFacts.deliver_sent fileList
                (fun i => (files_length + i)%nat) failures this H) as D.
  split; [exact D |]. split.
  - rewrite ListenerFacts.deliver_errors.
    apply (AppFacts.errors_sent fileList
             (fun i => (files_length + i)%nat) failures H).
  - intros N. rewrite D. apply AppFacts.arrived_all, N.
Qed.

Lemma sent_files_are_received_witness :
  completions
    (FileReceiver.deliver FileReceiver.recorder FileReceiver.init
       (map FileReceiver.Message
          (App.wire
             (App.sendFiles (Some tt) 0 true
                (fun i => if (i =? 1)%nat then Some 2%nat else None)
                [hello; hello; empty_file])))).2
  = [(file_bytes hello, "hello.txt"%string, "text/plain"%string);
     ([], "empty.bin"%string, ""%string)].
Proof.
  apply (sent_files_are_received tt 0 true
           (fun i => if (i =? 1)%nat then Some 2%nat else None)
           [hello; hello; empty_file] FileReceiver.init).
  repeat constructor; apply N.leb_le; reflexivity.
Defined.

Module AppStateFacts.
Import App.









End AppStateFacts.



Module ReceivingFacts.
Import App.



Lemma concat_progress_calls soundEnabled ps :
  concat (progress_calls (receiver_callbacks soundEnabled) ps)
  = map SetReceiveProgress ps.
Proof.
  unfold progress_calls.
  induction ps as [| p ps IH]; [reflexivity |].
  cbn [flat_map]. rewrite concat_app, IH. reflexivity.
Qed.



Lemma transfer_actions soundEnabled (this : FileReceiver.t) (m : FileMetadata)
    (payloads : list ArrayBuffer) :
  totalChunks m = N.of_nat (length payloads) ->
  (totalChunks m <= Array.max_length)%N ->
  concat (FileReceiver.deliver (receiver_callbacks soundEnabled) this
            (transfer m (in_order payloads))).2
  = [SetIsReceiving true; SetReceiveProgress (Number.Fin 0);
     SetReceivedFile None]
    ++ map SetReceiveProgress
         (percents 0 (totalChunks m) (N.to_nat (totalChunks m)))
    ++ [SetReceivedFile
          (Some (mkReceived
                   (mkBlob (concat payloads) (normalize_type (fileType m)))
                   (fileName m) (fileType m)));
        SetIsReceiving false]
    ++ (if soundEnabled then [PlaySound sound_complete] else [])
    ++ [ShowToast ("Received: " ++ fileName m) toast_success].
Proof.
  intros Hn Hmax.
  rewrite (ReceiverFacts.deliver_transfer _ _ _ _
             (Array.mk (totalChunks m) ∅))
    by (unfold Array.new; apply N.leb_le in Hmax; rewrite Hmax; reflexivity).
  cbn [snd]. rewrite !concat_app, concat_progress_calls.
  unfold in_order at 1. rewrite length_imap.
  unfold new_Blob.
  rewrite (ArrayFacts.to_list_store_in_order _ _ Hn Hmax),
    ArrayFacts.flat_map_part_bytes.
  rewrite Hn, Nat2N.id. cbn. rewrite app_nil_r. reflexivity.
Qed.

End ReceivingFacts.



(** * The connection hook *)

Module UsePeerFacts.

Import UsePeer.

Lemma floor_index (r : Q) :
  (0 <= r <= 1 - Number.pow2 (-53))%Q ->
  (0 <= Qfloor (Number.round53 (r * 36)) <= 35)%Z.
Proof.
  intros [L U]. split.
  - change 0%Z with (Qfloor 0). apply Qfloor_resp_le, NumberFacts.round53_nonneg.
  - assert (T : (Qfloor (Number.round53 ((1 - Number.pow2 (-53)) * 36)) = 35)%Z)
      by (vm_compute; reflexivity).
    rewrite <- T. apply Qfloor_resp_le, NumberFacts.round53_mono.
    apply Qmult_le_compat_r; [exact U | discriminate].
Qed.

Lemma get_chars (n : nat) :
  (n < 36)%nat ->
  exists c, String.get n chars = Some c /\ alphanumeric c = true.
Proof.
  intros H.
  do 36 (destruct n as [| n]; [eexists; split; reflexivity |]).
  lia.
Qed.

Lemma charAt_random (x : number) :
  in_unit_interval x ->
  exists c,
    charAt chars
      (Math_floor (Number.mul x (Number.of_N (N.of_nat (String.length chars)))))
    = String c EmptyString
    /\ alphanumeric c = true.
Proof.
  destruct x as [r | |]; cbn [in_unit_interval]; [| tauto | tauto].
  intros H. pose proof (floor_index r H) as [L U].
  change (Number.of_N (N.of_nat (String.length chars)))
    with (Number.Fin 36).
  cbn [Number.mul Math_floor charAt].
  set (z := Qfloor (Number.round53 (r * 36))) in *.
  assert (F : Qfloor (inject_Z z) = z) by apply Qfloor_Z.
  assert (P : Qle_bool 0 (inject_Z z) = true).
  { apply Qle_bool_iff. change 0%Q with (inject_Z 0).
    rewrite <- Zle_Qle. exact L. }
  rewrite P, F.
  destruct (Z.ltb_spec z 0) as [N | _]; [lia |].
  destruct (get_chars (Z.to_nat z)) as (c & G & A); [lia |].
  rewrite G. exists c. split; [reflexivity | exact A].
Qed.

Lemma short_id (random : nat -> number) :
  (forall i, (i < 6)%nat -> in_unit_interval (random i)) ->
  is_short_id (generateShortId random) = true.
Proof.
  intros H. unfold generateShortId. cbn [seq foldl].
  destruct (charAt_random (random 0%nat)) as (c0 & -> & A0); [apply H; lia |].
  destruct (charAt_random (random 1%nat)) as (c1 & -> & A1); [apply H; lia |].
  destruct (charAt_random (random 2%nat)) as (c2 & -> & A2); [apply H; lia |].
  destruct (charAt_random (random 3%nat)) as (c3 & -> & A3); [apply H; lia |].
  destruct (charAt_random (random 4%nat)) as (c4 & -> & A4); [apply H; lia |].
  destruct (charAt_random (random 5%nat)) as (c5 & -> & A5); [apply H; lia |].
  change (forallb alphanumeric [c0; c1; c2; c3; c4; c5] = true).
  cbn [forallb]. rewrite A0, A1, A2, A3, A4, A5. reflexivity.
Qed.

Ltac hook_cases :=
  unfold step, initializePeer, maxReconnectAttempts in *;
  repeat case_match; simplify_eq;
  repeat match goal with
         | H : (_ <? _)%nat = true |- _ => apply Nat.ltb_lt in H
         | H : (_ <? _)%nat = false |- _ => apply Nat.ltb_ge in H
         end.

Section Hook.

Context {DataConnection : Type}.

Implicit Types (st : t DataConnection) (ev : event DataConnection).

Lemma run_cons random ev st (rest : list ((nat -> number) * event DataConnection)) :
  run st ((random, ev) :: rest)
  = ((run (step random st ev).1 rest).1,
     (step random st ev).2 ++ (run (step random st ev).1 rest).2).
Proof.
  cbn [run]. destruct (step random st ev) as [st1 es1]. cbn [fst snd].
  destruct (run st1 rest) as [st2 es2]. reflexivity.
Qed.

Lemma step_attempts random st ev :
  (reconnectAttempts st <= maxReconnectAttempts)%nat ->
  (reconnectAttempts (step random st ev).1 <= maxReconnectAttempts)%nat.
Proof. intros H. hook_cases; cbn; lia. Qed.

Lemma step_connected random st ev :
  (status st = Connected -> connection st <> None) ->
  status (step random st ev).1 = Connected ->
  connection (step random st ev).1 <> None.
Proof. intros H. hook_cases; cbn; first [discriminate | exact H]. Qed.

Lemma step_reconnections random st ev :
  resets ev = false ->
  (length (reconnections (step random st ev).2) + reconnectAttempts st
   = reconnectAttempts (step random st ev).1)%nat.
Proof. intros H. hook_cases; cbn in *; first [discriminate | lia]. Qed.

Lemma reconnections_app (xs ys : list (effect)) :
  reconnections (xs ++ ys) = reconnections xs ++ reconnections ys.
Proof. apply List.filter_app. Qed.

Lemma new_peers_app (xs ys : list effect) :
  new_peers (xs ++ ys) = new_peers xs ++ new_peers ys.
Proof. apply flat_map_app. Qed.

Lemma run_attempts st (inputs : list ((nat -> number) * event DataConnection)) :
  (reconnectAttempts st <= maxReconnectAttempts)%nat ->
  (reconnectAttempts (run st inputs).1 <= maxReconnectAttempts)%nat.
Proof.
  revert st. induction inputs as [| [random ev] rest IH]; intros st H.
  - exact H.
  - rewrite run_cons. cbn [fst]. apply IH, step_attempts, H.
Qed.

Lemma run_connected st (inputs : list ((nat -> number) * event DataConnection)) :
  (status st = Connected -> connection st <> None) ->
  status (run st inputs).1 = Connected ->
  connection (run st inputs).1 <> None.
Proof.
  revert st. induction inputs as [| [random ev] rest IH]; intros st H.
  - exact H.
  - rewrite run_cons. cbn [fst]. apply IH, step_connected, H.
Qed.

Lemma step_new_peers random st ev :
  Forall (fun id => id = generateShortId random)
         (new_peers (step random st ev).2).
Proof. hook_cases; cbn; repeat constructor. Qed.

End Hook.

End UsePeerFacts.

(** X14: whatever [Math.random()] returns in its range, from 0 to the
    last number below 1, [generateShortId] returns [zap-] followed by
    exactly six characters, each a lower-case letter or a digit: the
    index it computes never leaves the alphabet. *)
Theorem generateShortId_format (random : nat -> number) :
  (forall i, (i < 6)%nat -> UsePeer.in_unit_interval (random i)) ->
  UsePeer.is_short_id (UsePeer.generateShortId random) = true.
Proof. apply UsePeerFacts.short_id. Qed.

Lemma generateShortId_format_witness :
  UsePeer.is_short_id
    (UsePeer.generateShortId
       (fun _ => Number.Fin (1 - Number.pow2 (-53)))) = true.
Proof.
  apply (generateShortId_format (fun _ => Number.Fin (1 - Number.pow2 (-53)))).
  intros i _. split; vm_compute; discriminate.
Defined.

(** X15: whatever happens to the hook after it is created, the counter
    of reconnection attempts never exceeds [maxReconnectAttempts]. *)
Theorem reconnect_attempts_bounded {DataConnection : Type}
    (inputs : list ((nat -> number) * UsePeer.event DataConnection)) :
  (UsePeer.reconnectAttempts (UsePeer.run UsePeer.init inputs).1
   <= UsePeer.maxReconnectAttempts)%nat.
Proof.
  apply UsePeerFacts.run_attempts. unfold UsePeer.maxReconnectAttempts.
  cbn. lia.
Qed.

(** X16: whenever the status of the hook is [connected], it holds a
    connection. *)
Theorem connected_has_connection {DataConnection : Type}
    (inputs : list ((nat -> number) * UsePeer.event DataConnection)) :
  UsePeer.status (UsePeer.run UsePeer.init inputs).1 = UsePeer.Connected ->
  UsePeer.connection (UsePeer.run UsePeer.init inputs).1 <> None.
Proof. apply UsePeerFacts.run_connected. discriminate. Qed.

Lemma connected_has_connection_witness :
  UsePeer.connection
    (UsePeer.run UsePeer.init
       [(fun _ => Number.Fin 0, UsePeer.Mount);
        (fun _ => Number.Fin 0, UsePeer.PeerOpen "zap-aaaaaa"%string);
        (fun _ => Number.Fin 0, UsePeer.ConnectToPeer "zap-bbbbbb"%string);
        (fun _ => Number.Fin 0, UsePeer.ConnOpen tt)]).1 <> None.
Proof.
  apply (connected_has_connection
           [(fun _ => Number.Fin 0, UsePeer.Mount);
            (fun _ => Number.Fin 0, UsePeer.PeerOpen "zap-aaaaaa"%string);
            (fun _ => Number.Fin 0, UsePeer.ConnectToPeer "zap-bbbbbb"%string);
            (fun _ => Number.Fin 0, UsePeer.ConnOpen tt)]).
  reflexivity.
Defined.

(** X17: as long as no peer opens and [retry] is not called, every
    reconnection the hook starts by itself (a delayed [initializePeer]
    or a [reconnect]) is counted, so that at most
    [maxReconnectAttempts] of them are started, less those already
    counted. *)
Theorem reconnections_counted {DataConnection : Type}
    (st : UsePeer.t DataConnection)
    (inputs : list ((nat -> number) * UsePeer.event DataConnection)) :
  (UsePeer.reconnectAttempts st <= UsePeer.maxReconnectAttempts)%nat ->
  Forall (fun i => UsePeer.resets i.2 = false) inputs ->
  let n := length (UsePeer.reconnections (UsePeer.run st inputs).2) in
  (n + UsePeer.reconnectAttempts st
   = UsePeer.reconnectAttempts (UsePeer.run st inputs).1
   /\ n <= UsePeer.maxReconnectAttempts - UsePeer.reconnectAttempts st)%nat.
Proof.
  intros B H. cbv zeta.
  assert (E : (length (UsePeer.reconnections (UsePeer.run st inputs).2)
               + UsePeer.reconnectAttempts st
               = UsePeer.reconnectAttempts (UsePeer.run st inputs).1)%nat).
  { clear B. revert st.
    induction H as [| [random ev] rest R _ IH]; intros st; [reflexivity |].
    rewrite UsePeerFacts.run_cons. cbn [fst snd] in *.
    rewrite UsePeerFacts.reconnections_app, length_app, <- IH.
    rewrite <- (UsePeerFacts.step_reconnections random st ev R). lia. }
  split; [exact E |].
  pose proof (UsePeerFacts.run_attempts st inputs B). lia.
Qed.

Lemma reconnections_counted_witness :
  let inputs : list ((nat -> number) * UsePeer.event unit) :=
    [(fun _ => Number.Fin 0, UsePeer.PeerDisconnected "zap-aaaaaa"%string);
     (fun _ => Number.Fin 0, UsePeer.PeerError "network" "Lost connection"%string);
     (fun _ => Number.Fin 0, UsePeer.TimerFired);
     (fun _ => Number.Fin 0, UsePeer.PeerDisconnected "zap-aaaaaa"%string);
     (fun _ => Number.Fin 0, UsePeer.PeerError "network" "Lost connection"%string)] in
  let n := length (UsePeer.reconnections (UsePeer.run UsePeer.init inputs).2) in
  (n + 0 = UsePeer.reconnectAttempts (UsePeer.run UsePeer.init inputs).1
   /\ n <= UsePeer.maxReconnectAttempts - 0)%nat.
Proof.
  intros inputs.
  apply (reconnections_counted UsePeer.init inputs).
  - unfold UsePeer.maxReconnectAttempts. cbn. lia.
  - repeat constructor.
Defined.



(** X19: every peer the hook creates, at mounting, after an error, on
    [retry], is given an id of the form [generateShortId] produces,
    [zap-] and six letters or digits. *)
Theorem peers_have_short_ids {DataConnection : Type}
    (st : UsePeer.t DataConnection)
    (inputs : list ((nat -> number) * UsePeer.event DataConnection)) :
  Forall (fun i => forall k, (k < 6)%nat -> UsePeer.in_unit_interval (i.1 k))
         inputs ->
  Forall (fun id => UsePeer.is_short_id id = true)
         (UsePeer.new_peers (UsePeer.run st inputs).2).
Proof.
  intros H. revert st.
  induction H as [| [random ev] rest R _ IH]; intros st.
  - constructor.
  - rewrite UsePeerFacts.run_cons. cbn [fst snd] in *.
    rewrite UsePeerFacts.new_peers_app. apply Forall_app. split; [| apply IH].
    eapply Forall_impl; [apply UsePeerFacts.step_new_peers |].
    intros id ->. apply UsePeerFacts.short_id, R.
Qed.

Lemma peers_have_short_ids_witness :
  Forall (fun id => UsePeer.is_short_id id = true)
         (UsePeer.new_peers
            (UsePeer.run (UsePeer.init (DataConnection := unit))
               [(fun _ => Number.Fin (1 # 2), UsePeer.Mount);
                (fun _ => Number.Fin (1 # 3), UsePeer.Retry)]).2).
Proof.
  apply (peers_have_short_ids UsePeer.init
           [(fun _ => Number.Fin (1 # 2), UsePeer.Mount);
            (fun _ => Number.Fin (1 # 3), UsePeer.Retry)]).
  repeat constructor; vm_compute; discriminate.
Defined.

(** * Receivers on one connection *)

Module ListenersFacts.

Import App.

Lemma effects_listeners (sounds : list bool) : forall listeners,
  foldl (fun c s => receiving_effect s c) (Some listeners) sounds
  = Some (listeners ++ map (fun s => (s, FileReceiver.init)) sounds).
Proof.
  induction sounds as [| s sounds IH]; intros listeners; cbn [foldl map].
  - rewrite app_nil_r. reflexivity.
  - cbn [receiving_effect]. rewrite IH, <- app_assoc. reflexivity.
Qed.

Lemma emit_all_cons listeners received rest :
  emit_all listeners (received :: rest)
  = ((emit_all (emit listeners received).1 rest).1,
     (emit listeners received).2 ++ (emit_all (emit listeners received).1 rest).2).
Proof.
  cbn [emit_all]. destruct (emit listeners received) as [l1 a1]. cbn [fst snd].
  destruct (emit_all l1 rest) as [l2 a2]. reflexivity.
Qed.

Section Projection.

Context {B : Type} (g : action -> list B).

Lemma concat_map_app {X} (F G : X -> list B) (xs : list X) :
  concat (map F xs) ++ concat (map G xs)
  ≡ₚ concat (map (fun x => F x ++ G x) xs).
Proof.
  induction xs as [| x xs IH]; [reflexivity |].
  cbn [map concat]. rewrite <- IH, <- !app_assoc.
  apply Permutation_app_head, Permutation_app_swap_app.
Qed.

Lemma flat_map_concat_map {X} (F : X -> list action) (xs : list X) :
  flat_map g (flat_map F xs) = concat (map (fun x => flat_map g (F x)) xs).
Proof.
  induction xs as [| x xs IH]; [reflexivity |].
  cbn [flat_map map concat]. rewrite flat_map_app, IH. reflexivity.
Qed.

(** What the listeners of a connection do together is, up to the order,
    what each of them does alone. *)
Lemma emit_all_each frames : forall listeners,
  flat_map g (emit_all listeners frames).2
  ≡ₚ concat
       (map (fun l =>
               flat_map g
                 (concat (FileReceiver.deliver (receiver_callbacks l.1) l.2
                            frames).2))
            listeners).
Proof.
  induction frames as [| d frames IH]; intros listeners.
  - cbn. induction listeners as [| l ls IHl]; [reflexivity | exact IHl].
  - rewrite emit_all_cons. cbn [snd]. rewrite flat_map_app, IH.
    unfold emit. cbn [fst snd]. rewrite flat_map_concat_map, map_map.
    cbn [fst snd]. rewrite concat_map_app.
    replace (map _ listeners) with
      (map (fun l =>
              flat_map g
                (concat (FileReceiver.deliver (receiver_callbacks l.1) l.2
                           (d :: frames)).2))
           listeners); [reflexivity |].
    apply map_ext. intros [s r].
    cbn [fst snd]. rewrite ReceiverFacts.deliver_cons. cbn [snd].
    rewrite concat_app, flat_map_app. reflexivity.
Qed.

End Projection.

Lemma Permutation_replicate_eq {B} (x : B) n l :
  l ≡ₚ replicate n x -> l = replicate n x.
Proof. intros P. symmetry. apply replicate_Permutation. symmetry. exact P. Qed.

Lemma flat_map_progress {B} (g : action -> list B) ps :
  (forall p, g (SetReceiveProgress p) = []) ->
  flat_map g (map SetReceiveProgress ps) = [].
Proof.
  intros G. induction ps as [| p ps IH]; [reflexivity |].
  cbn [map flat_map]. rewrite G, IH. reflexivity.
Qed.

Section Transfer.

Context (m : FileMetadata) (payloads : list ArrayBuffer).
Hypothesis Hn : totalChunks m = N.of_nat (length payloads).
Hypothesis Hmax : (totalChunks m <= Array.max_length)%N.

Lemma each_toasts (sounds : list bool) :
  concat
    (map (fun l =>
            toasts
              (concat (FileReceiver.deliver (receiver_callbacks l.1) l.2
                         (transfer m (in_order payloads))).2))
         (map (fun s => (s, FileReceiver.init)) sounds))
  = replicate (length sounds)
      (("Received: " ++ fileName m)%string, toast_success).
Proof.
  induction sounds as [| s sounds IH]; [reflexivity |].
  cbn [map concat length replicate fst snd]. rewrite IH.
  rewrite (ReceivingFacts.transfer_actions _ _ _ _ Hn Hmax).
  unfold toasts at 1. rewrite !flat_map_app, flat_map_progress by reflexivity.
  destruct s; reflexivity.
Qed.

Lemma each_sounds (sounds : list bool) :
  concat
    (map (fun l =>
            sounds_played
              (concat (FileReceiver.deliver (receiver_callbacks l.1) l.2
                         (transfer m (in_order payloads))).2))
         (map (fun s => (s, FileReceiver.init)) sounds))
  = replicate (length (List.filter (fun s => s) sounds)) sound_complete.
Proof.
  induction sounds as [| s sounds IH]; [reflexivity |].
  cbn [map concat fst snd List.filter]. rewrite IH.
  rewrite (ReceivingFacts.transfer_actions _ _ _ _ Hn Hmax).
  unfold sounds_played at 1.
  rewrite !flat_map_app, flat_map_progress by reflexivity.
  destruct s; reflexivity.
Qed.

End Transfer.

End ListenersFacts.

(** X20: each run of the receiving effect on a connection registers the
    listener of one more receiver, and no cleanup removes one.  After
    the effect has run [n] times on the same connection (once, and again
    whenever [soundEnabled] changed), [n] receivers reassemble every
    transfer: a file received is announced by [n] toasts, and the sound
    is played once for each run that saw sound enabled. *)
Theorem receivers_accumulate (sounds : list bool) (m : FileMetadata)
    (payloads : list ArrayBuffer) :
  totalChunks m = N.of_nat (length payloads) ->
  (totalChunks m <= Array.max_length)%N ->
  exists listeners,
    foldl (fun c s => App.receiving_effect s c) (Some []) sounds
    = Some listeners
    /\ length listeners = length sounds
    /\ let acts :=
         (App.emit_all listeners (transfer m (in_order payloads))).2 in
       App.toasts acts
       = replicate (length sounds)
           (("Received: " ++ fileName m)%string, App.toast_success)
       /\ App.sounds_played acts
          = replicate (length (List.filter (fun s => s) sounds))
              App.sound_complete.
Proof.
  intros Hn Hmax.
  exists (map (fun s => (s, FileReceiver.init)) sounds).
  split; [apply (ListenersFacts.effects_listeners sounds []) |].
  split; [apply length_map |].
  cbv zeta. split.
  - apply ListenersFacts.Permutation_replicate_eq.
    unfold App.toasts at 1. rewrite ListenersFacts.emit_all_each.
    rewrite <- (ListenersFacts.each_toasts m payloads Hn Hmax sounds).
    reflexivity.
  - apply ListenersFacts.Permutation_replicate_eq.
    unfold App.sounds_played at 1. rewrite ListenersFacts.emit_all_each.
    rewrite <- (ListenersFacts.each_sounds m payloads Hn Hmax sounds).
    reflexivity.
Qed.

Lemma receivers_accumulate_witness :
  exists listeners,
    foldl (fun c s => App.receiving_effect s c) (Some []) [true; false; true]
    = Some listeners
    /\ length listeners = 3%nat
    /\ let acts :=
         (App.emit_all listeners (transfer one_byte (in_order [[x68]]))).2 in
       App.toasts acts
       = replicate 3 ("Received: a.bin"%string, App.toast_success)
       /\ App.sounds_played acts = replicate 2 App.sound_complete.
Proof.
  apply (receivers_accumulate [true; false; true] one_byte [[x68]]);
    [reflexivity | unfold Array.max_length; simpl; lia].
Defined.

(** * Sizes shown *)

Module DisplayFacts.

Import Display.

Lemma lt_Fin (a b : Q) : lt (Number.Fin a) (Number.Fin b) = true <-> (a < b)%Q.
Proof.
  cbn [lt]. rewrite negb_true_iff. split.
  - intros H. apply Qnot_le_lt. intros L.
    apply Qle_bool_iff in L. congruence.
  - intros H. destruct (Qle_bool b a) eqn:E; [| reflexivity].
    apply Qle_bool_iff in E. exfalso. exact (Qlt_not_le _ _ H E).
Qed.

Lemma lt_of_N (a z : N) (q : Q) :
  (q == inject_Z (Z.of_N z))%Q ->
  lt (Number.of_N a) (Number.Fin q) = (a <? z)%N.
Proof.
  intros E. unfold Number.of_N.
  destruct (N.ltb_spec a z) as [L | L].
  - apply lt_Fin. rewrite E, <- Zlt_Qlt. lia.
  - destruct (lt _ _) eqn:F; [| reflexivity].
    apply lt_Fin in F. rewrite E, <- Zlt_Qlt in F. lia.
Qed.

Lemma floor_half (x : Q) (b c h : Z) :
  (0 < h)%Z ->
  (x == inject_Z b / inject_Z (2 * h))%Q ->
  Qfloor (x * inject_Z c + (1 # 2)) = ((c * b + h) / (2 * h))%Z.
Proof.
  intros Hh E.
  assert (NZ : ~ (inject_Z h == 0)%Q).
  { intros Z. pose proof (NumberFacts.inject_Z_pos h Hh) as P.
    rewrite Z in P. discriminate. }
  assert (F : (x * inject_Z c + (1 # 2)
               == inject_Z (c * b + h) / inject_Z (2 * h))%Q).
  { rewrite E, inject_Z_plus, !inject_Z_mult. field. exact NZ. }
  rewrite (Qfloor_comp _ _ F), <- Zdiv_Qdiv. reflexivity.
Qed.

(** Dividing an integer below [2^53] by a power of two is exact. *)
Lemma div_pow2 (bytes : N) (q : Q) (k : N) :
  (bytes < 2 ^ 53)%N ->
  (q == inject_Z (Z.of_N (2 ^ k)))%Q ->
  exists x,
    Number.div (Number.of_N bytes) (Number.Fin q) = Number.Fin x
    /\ (x == inject_Z (Z.of_N bytes) / inject_Z (Z.of_N (2 ^ k)))%Q.
Proof.
  intros Hb Eq.
  assert (Hk : (2 ^ k <> 0)%N) by (apply N.pow_nonzero; discriminate).
  assert (Z : Number.is_zero q = false).
  { unfold Number.is_zero. destruct (Qeq_bool q 0) eqn:B; [| reflexivity].
    apply Qeq_bool_iff in B. rewrite Eq in B.
    apply (NumberFacts.is_zero_of_N (2 ^ k)) in Hk.
    unfold Number.is_zero in Hk.
    apply Qeq_bool_iff in B. congruence. }
  exists (Number.round53 (inject_Z (Z.of_N bytes) / q)). split.
  - unfold Number.div, Number.of_N. rewrite Z. reflexivity.
  - assert (E : (inject_Z (Z.of_N bytes) / q
                 == inject_Z (Z.of_N bytes) * Number.pow2 (- Z.of_N k))%Q).
    { rewrite Eq, N2Z.inj_pow. change (Z.of_N 2) with 2%Z.
      rewrite <- NumberFacts.pow2_Z by lia. unfold Number.pow2.
      rewrite Qpower_opp. reflexivity. }
    rewrite (NumberFacts.round53_comp _ _ E).
    rewrite NumberFacts.round53_dyadic
      by (change (2 ^ 53)%Z with (Z.of_N (2 ^ 53)); lia).
    rewrite <- E, Eq. reflexivity.
Qed.

Section ToString.

Variable toString : number -> string.

Lemma toFixed_half (x : Q) (bytes h : N) (f : nat) :
  (bytes < 2 ^ 53)%N ->
  (0 < h)%N ->
  (x == inject_Z (Z.of_N bytes) / inject_Z (Z.of_N (2 * h)))%Q ->
  toFixed toString (Number.Fin x) f
  = point ((10 ^ N.of_nat f * bytes + h) / (2 * h)) f.
Proof.
  intros Hb Hh E.
  assert (P : (0 < inject_Z (Z.of_N (2 * h)))%Q)
    by (apply NumberFacts.inject_Z_pos; lia).
  assert (L : (0 <= x)%Q).
  { rewrite E. apply Qle_shift_div_l; [exact P |].
    rewrite Qmult_0_l. change 0%Q with (inject_Z 0). rewrite <- Zle_Qle. lia. }
  assert (U : (x < inject_Z (10 ^ 21))%Q).
  { rewrite E. apply Qlt_shift_div_r; [exact P |].
    rewrite <- inject_Z_mult, <- Zlt_Qlt.
    assert (Z.of_N bytes < 2 ^ 53)%Z
      by (change (2 ^ 53)%Z with (Z.of_N (2 ^ 53)); lia).
    nia. }
  unfold toFixed. rewrite (proj2 (Qle_bool_iff 0 x) L).
  destruct (Qle_bool (inject_Z (10 ^ 21)) x) eqn:B.
  { apply Qle_bool_iff in B. exfalso. exact (Qlt_not_le _ _ U B). }
  cbn [String.append]. f_equal.
  rewrite (floor_half x (Z.of_N bytes) _ (Z.of_N h)); [| lia |].
  - rewrite <- (N2Z.id ((10 ^ N.of_nat f * bytes + h) / (2 * h))). f_equal.
    rewrite N2Z.inj_div, N2Z.inj_add, !N2Z.inj_mul, N2Z.inj_pow, nat_N_Z.
    reflexivity.
  - rewrite E, N2Z.inj_mul. reflexivity.
Qed.

Lemma formatSize_eq (bytes : N) :
  (bytes < 2 ^ 53)%N ->
  formatSize toString (Number.of_N bytes)
  = if (bytes <? 1024)%N then (toString (Number.of_N bytes) ++ " B")%string
    else if (bytes <? 1048576)%N
    then (point ((10 * bytes + 512) / 1024) 1 ++ " KB")%string
    else if (bytes <? 1073741824)%N
    then (point ((10 * bytes + 524288) / 1048576) 1 ++ " MB")%string
    else (point ((100 * bytes + 536870912) / 1073741824) 2 ++ " GB")%string.
Proof.
  intros Hb. unfold formatSize. cbv zeta.
  set (K := Number.of_N 1024).
  assert (E1 : (inject_Z (Z.of_N 1024) == inject_Z (Z.of_N (2 ^ 10)))%Q)
    by reflexivity.
  assert (K2 : exists q, Number.mul K K = Number.Fin q
                         /\ (q == inject_Z (Z.of_N (2 ^ 20)))%Q).
  { eexists. split; [reflexivity | vm_compute; reflexivity]. }
  destruct K2 as (q2 & -> & E2).
  assert (K3 : exists q, Number.mul (Number.Fin q2) K = Number.Fin q
                         /\ (q == inject_Z (Z.of_N (2 ^ 30)))%Q).
  { eexists. split; [reflexivity |].
    assert (M : (q2 * inject_Z (Z.of_N 1024) == inject_Z (Z.of_N (2 ^ 30)))%Q)
      by (rewrite E2; vm_compute; reflexivity).
    rewrite (NumberFacts.round53_comp _ _ M). vm_compute. reflexivity. }
  destruct K3 as (q3 & -> & E3).
  subst K.
  change (Number.of_N 1024) with (Number.Fin (inject_Z (Z.of_N 1024))).
  rewrite (lt_of_N bytes 1024 _ (Qeq_refl _)).
  rewrite (lt_of_N bytes (2 ^ 20) q2 E2), (lt_of_N bytes (2 ^ 30) q3 E3).
  change (2 ^ 20)%N with 1048576%N. change (2 ^ 30)%N with 1073741824%N.
  destruct (bytes <? 1024)%N; [reflexivity |].
  destruct (bytes <? 1048576)%N.
  { destruct (div_pow2 bytes _ 10 Hb E1) as (x & -> & Ex).
    rewrite (toFixed_half x bytes 512 1 Hb); [reflexivity | lia | exact Ex]. }
  destruct (bytes <? 1073741824)%N.
  { destruct (div_pow2 bytes _ 20 Hb E2) as (x & -> & Ex).
    rewrite (toFixed_half x bytes 524288 1 Hb); [reflexivity | lia | exact Ex]. }
  destruct (div_pow2 bytes _ 30 Hb E3) as (x & -> & Ex).
  rewrite (toFixed_half x bytes 536870912 2 Hb); [reflexivity | lia | exact Ex].
Qed.

End ToString.

End DisplayFacts.

(** X21: for every size below [2^53], [formatSize] shows the exact
    quotient of the size by its unit, rounded to the nearest tenth (to
    the nearest hundredth for GB), halves upwards: the binary64 division
    and [toFixed] lose nothing.  Below 1024 the number is shown as it
    is. *)
Theorem formatSize_exact (toString : number -> string) (bytes : N) :
  (bytes < 2 ^ 53)%N ->
  Display.formatSize toString (Number.of_N bytes)
  = if (bytes <? 1024)%N then (toString (Number.of_N bytes) ++ " B")%string
    else if (bytes <? 1048576)%N
    then (Display.point ((10 * bytes + 512) / 1024) 1 ++ " KB")%string
    else if (bytes <? 1073741824)%N
    then (Display.point ((10 * bytes + 524288) / 1048576) 1 ++ " MB")%string
    else (Display.point ((100 * bytes + 536870912) / 1073741824) 2
          ++ " GB")%string.
Proof. apply DisplayFacts.formatSize_eq. Qed.

Lemma formatSize_exact_witness :
  Display.formatSize (fun _ => EmptyString) (Number.of_N 5000000)
  = "4.8 MB"%string.
Proof.
  apply (formatSize_exact (fun _ => EmptyString) 5000000). reflexivity.
Defined.

(** X22: the unit is chosen before the number is rounded: the last 51
    sizes below one MB are shown as [1024.0 KB], and the sizes from
    1073689396 bytes up to one GB as [1024.0 MB]. *)
Theorem formatSize_below_unit (toString : number -> string) (bytes : N) :
  ((1048525 <= bytes < 1048576)%N ->
   Display.formatSize toString (Number.of_N bytes) = "1024.0 KB"%string)
  /\ ((1073689396 <= bytes < 1073741824)%N ->
      Display.formatSize toString (Number.of_N bytes) = "1024.0 MB"%string).
Proof.
  split; intros [L U].
  - rewrite DisplayFacts.formatSize_eq
      by (apply N.lt_trans with (1 := U); reflexivity).
    rewrite (proj2 (N.ltb_ge bytes 1024)) by lia.
    rewrite (proj2 (N.ltb_lt bytes 1048576)) by exact U.
    replace ((10 * bytes + 512) / 1024)%N with 10240%N; [reflexivity |].
    apply (N.div_unique _ _ _ (10 * bytes + 512 - 10485760)); lia.
  - rewrite DisplayFacts.formatSize_eq
      by (apply N.lt_trans with (1 := U); reflexivity).
    rewrite (proj2 (N.ltb_ge bytes 1024)) by lia.
    rewrite (proj2 (N.ltb_ge bytes 1048576)) by lia.
    rewrite (proj2 (N.ltb_lt bytes 1073741824)) by exact U.
    replace ((10 * bytes + 524288) / 1048576)%N with 10240%N;
      [reflexivity |].
    apply (N.div_unique _ _ _ (10 * bytes + 524288 - 10737418240)); lia.
Qed.

Lemma formatSize_below_unit_witness :
  Display.formatSize (fun _ => EmptyString) (Number.of_N 1048575)
  = "1024.0 KB"%string
  /\ Display.formatSize (fun _ => EmptyString) (Number.of_N 1073741823)
     = "1024.0 MB"%string.
Proof.
  split.
  - apply (proj1 (formatSize_below_unit (fun _ => EmptyString) 1048575)). lia.
  - apply (proj2 (formatSize_below_unit (fun _ => EmptyString) 1073741823)).
    lia.
Defined.

(** * The declared size *)

Module FileSizeFacts.

Import FileReceiver.

Lemma on_data_declare {A} (cb : callbacks A) (s : FileMetadata -> N)
    this this' d :
  same_but_fileSize this this' ->
  (on_data cb this (declare s d)).2 = (on_data cb this' d).2
  /\ same_but_fileSize (on_data cb this (declare s d)).1 (on_data cb this' d).1.
Proof.
  intros (C & R & M).
  destruct d as [| [m | c |] |]; cbn [declare].
  - rewrite (ReceiverFacts.on_data_listener cb this _ _ _ _
               (ReceiverFacts.listener_nullish cb this)).
    rewrite (ReceiverFacts.on_data_listener cb this' _ _ _ _
               (ReceiverFacts.listener_nullish cb this')).
    repeat split; assumption.
  - destruct (Array.new (totalChunks m)) as [a |] eqn:E.
    + rewrite (ReceiverFacts.on_data_listener cb this _ _ _ _
                 (ReceiverFacts.listener_metadata cb this
                    (mkMetadata (fileName m) (fileType m) (s m) (totalChunks m))
                    a E)).
      rewrite (ReceiverFacts.on_data_listener cb this' _ _ _ _
                 (ReceiverFacts.listener_metadata cb this' m a E)).
      repeat split.
    + rewrite (ReceiverFacts.on_data_listener cb this _ _ _ _
                 (ReceiverFacts.listener_metadata_rejected cb this
                    (mkMetadata (fileName m) (fileType m) (s m) (totalChunks m))
                    E)).
      rewrite (ReceiverFacts.on_data_listener cb this' _ _ _ _
                 (ReceiverFacts.listener_metadata_rejected cb this' m E)).
      repeat split; assumption.
  - destruct (metadata this) as [md |] eqn:E,
             (metadata this') as [md' |] eqn:E'; try contradiction.
    + destruct M as (F & Y & T).
      rewrite (ReceiverFacts.on_data_listener cb this _ _ _ _
                 (ReceiverFacts.listener_chunk cb this md c E)).
      rewrite (ReceiverFacts.on_data_listener cb this' _ _ _ _
                 (ReceiverFacts.listener_chunk cb this' md' c E')).
      cbn [fst snd]. rewrite C, R, T.
      repeat split; cbn; try assumption; reflexivity.
    + rewrite (ReceiverFacts.on_data_listener cb this _ _ _ _
                 (ReceiverFacts.listener_chunk_idle cb this c E)).
      rewrite (ReceiverFacts.on_data_listener cb this' _ _ _ _
                 (ReceiverFacts.listener_chunk_idle cb this' c E')).
      split; [reflexivity |]. unfold same_but_fileSize. cbn [fst].
      rewrite E, E'. auto.
  - destruct (metadata this) as [md |] eqn:E,
             (metadata this') as [md' |] eqn:E'; try contradiction.
    + destruct M as (F & T & _).
      rewrite (ReceiverFacts.on_data_listener cb this _ _ _ _
                 (ReceiverFacts.listener_complete cb this md E)).
      rewrite (ReceiverFacts.on_data_listener cb this' _ _ _ _
                 (ReceiverFacts.listener_complete cb this' md' E')).
      cbn [fst snd]. rewrite C, F, T. repeat split.
    + rewrite (ReceiverFacts.on_data_listener cb this _ _ _ _
                 (ReceiverFacts.listener_complete_idle cb this E)).
      rewrite (ReceiverFacts.on_data_listener cb this' _ _ _ _
                 (ReceiverFacts.listener_complete_idle cb this' E')).
      split; [reflexivity |]. unfold same_but_fileSize. cbn [fst].
      rewrite E, E'. auto.
  - repeat split; assumption.
Qed.

Lemma deliver_declare {A} (cb : callbacks A) (s : FileMetadata -> N) frames :
  forall this this',
    same_but_fileSize this this' ->
    (deliver cb this (map (declare s) frames)).2 = (deliver cb this' frames).2
    /\ same_but_fileSize (deliver cb this (map (declare s) frames)).1
                         (deliver cb this' frames).1.
Proof.
  induction frames as [| d frames IH]; intros this this' S; [split; [reflexivity | exact S] |].
  cbn [map]. rewrite !ReceiverFacts.deliver_cons. cbn [fst snd].
  destruct (on_data_declare cb s this this' d S) as [O S'].
  destruct (IH _ _ S') as [O' S''].
  rewrite O, O'. split; [reflexivity | exact S''].
Qed.

Lemma same_but_fileSize_refl this : same_but_fileSize this this.
Proof.
  repeat split. destruct (metadata this); repeat split.
Qed.

End FileSizeFacts.

(** X23: the receiver never reads [fileSize]: whatever sizes the
    Metadata frames declare, the callbacks are called in the same order
    with the same arguments, and the receiver holds the same chunks and
    the same count. *)
Theorem fileSize_is_ignored {A} (cb : FileReceiver.callbacks A)
    (s : FileMetadata -> N) (this : FileReceiver.t)
    (frames : list FileReceiver.unknown) :
  (FileReceiver.deliver cb this (map (declare s) frames)).2
  = (FileReceiver.deliver cb this frames).2
  /\ same_but_fileSize
       (FileReceiver.deliver cb this (map (declare s) frames)).1
       (FileReceiver.deliver cb this frames).1.
Proof.
  apply FileSizeFacts.deliver_declare, FileSizeFacts.same_but_fileSize_refl.
Qed.
